(** * Squeak: trajectory normalisation and geometric deviation

    A shallow embedding of [squeak/main.py] (the resampler, the spatial
    normaliser, the event locator and the deviation metrics) together with
    the properties stated for them.

    Numbers.  The Python code computes on IEEE doubles.  The value of a
    double is idealised as an exact number: a rational ([Q]) wherever the
    code only adds, subtracts, multiplies, divides and compares, so that
    every such function still runs inside Rocq; a real ([R]) for the
    functions that call [math.sqrt], [math.atan], [math.sin] and
    [math.cos].  "Equal within floating tolerance" therefore reads as exact
    equality ([==] on [Q]).  Where rounding decides something discrete (how
    many timestamps [np.arange] generates, how many items are required) the
    rounding is explicit: those functions take the rounding [fl] of a
    binary64 operation as a parameter, [b64] is round-to-nearest-even on 53
    bits, and overflow to infinity and underflow below the normal range are
    outside the model.  An array of Python integers is an array of 64-bit
    integers, whose arithmetic wraps around.

    Failure.  A Python exception is a value [Raise e] of the [result] type;
    functions are written in the monad so that the order of evaluation (and
    thus which exception comes first) is the order of the source. *)

From Stdlib Require Import List ZArith QArith Qround Qabs Qpower Lia Lqa Bool.
From Stdlib Require Import Reals Lra.
Import ListNotations.

Set Implicit Arguments.

(* ================================================================== *)
(** ** Exceptions and the result monad *)

Inductive exn : Type :=
| IndexError
| ValueError
| ZeroDivisionError.

Inductive result (A : Type) : Type :=
| Ok (a : A)
| Raise (e : exn).

Arguments Ok {A} a.
Arguments Raise {A} e.

Definition bind {A B : Type} (m : result A) (k : A -> result B) : result B :=
  match m with
  | Ok a => k a
  | Raise e => Raise e
  end.

Notation "x <- m ;; k" := (bind m (fun x => k))
  (at level 61, m at next level, right associativity).

Fixpoint mapM {A B : Type} (f : A -> result B) (l : list A) : result (list B) :=
  match l with
  | [] => Ok []
  | a :: l' => b <- f a ;; bs <- mapM f l' ;; Ok (b :: bs)
  end.

(* ================================================================== *)
(** ** Python sequences *)

Module Py.
Section Seq.
Variable T : Type.
(** [lt a b] is Python's [a < b] on the element type. *)
Variable lt : T -> T -> bool.

(** [l[i]] for a non-negative [i]. *)
Definition index (l : list T) (i : nat) : result T :=
  match nth_error l i with
  | Some a => Ok a
  | None => Raise IndexError
  end.

(** [l[0]]. *)
Definition first (l : list T) : result T := index l 0.

(** [l[-1]], which is also [l[len(l)-1]]: on the empty list both raise. *)
Definition last (l : list T) : result T :=
  match l with
  | [] => Raise IndexError
  | a :: l' => Ok (List.last l' a)
  end.

(** Builtin [min]: the first smallest item; [ValueError] on an empty
    argument. *)
Definition min (l : list T) : result T :=
  match l with
  | [] => Raise ValueError
  | a :: l' => Ok (fold_left (fun m b => if lt b m then b else m) l' a)
  end.

(** Builtin [max]: the first largest item. *)
Definition max (l : list T) : result T :=
  match l with
  | [] => Raise ValueError
  | a :: l' => Ok (fold_left (fun m b => if lt m b then b else m) l' a)
  end.

(** [[v] * n] for a Python integer [n]: empty when [n <= 0]. *)
Definition replicate (v : T) (n : Z) : list T := repeat v (Z.to_nat n).
End Seq.
End Py.

(* ================================================================== *)
(** ** Rational arithmetic as Python sees it *)

Definition Qltb (a b : Q) : bool :=
  match Qcompare a b with Lt => true | _ => false end.

Definition Qgtb (a b : Q) : bool := Qltb b a.

(** True division of doubles: [ZeroDivisionError] on a zero divisor, else
    the quotient as [fl] rounds it. *)
Definition py_div (fl : Q -> Q) (a b : Q) : result Q :=
  if Qeq_bool b 0 then Raise ZeroDivisionError else Ok (fl (a / b)).

(** [int(q)]: truncation toward zero. *)
Definition py_int (q : Q) : Z :=
  if Qltb q 0 then Qceiling q else Qfloor q.

(** Builtin [sum]: a left fold from 0. *)
Definition py_sum (l : list Q) : Q := fold_left Qplus l 0.

(* ================================================================== *)
(** ** Rounding to binary64 *)

(** What is assumed of the rounding [fl] of one binary64 operation: it
    respects equality, never reverses an order, leaves a rounded value and
    the numbers 0 and 1 alone, and sends no other number to 0 (no
    underflow). *)
Record rounding (fl : Q -> Q) : Prop := {
  fl_proper : forall p q, p == q -> fl p == fl q;
  fl_mono : forall p q, p <= q -> fl p <= fl q;
  fl_idem : forall q, fl (fl q) == fl q;
  fl_zero : fl 0 == 0;
  fl_one : fl 1 == 1;
  fl_nonzero : forall q, ~ q == 0 -> ~ fl q == 0
}.

(** [floor(log2 q)] for a positive [q]. *)
Definition ilog2 (q : Q) : Z :=
  let e0 := (Z.log2 (Qnum q) - Z.log2 (Zpos (Qden q)))%Z in
  if Qle_bool (Qpower 2 e0) q then e0 else (e0 - 1)%Z.

(** Rounding to the nearest integer, a tie to the even one. *)
Definition round_half_even (q : Q) : Z :=
  let f := Qfloor q in
  match Qcompare (q - inject_Z f) (1 # 2) with
  | Lt => f
  | Gt => (f + 1)%Z
  | Eq => if Z.even f then f else (f + 1)%Z
  end.

(** Round-to-nearest-even on 53 significant bits: the rounding of binary64
    within its normal range. *)
Definition b64 (q : Q) : Q :=
  if Qeq_bool q 0 then 0
  else
    let a := Qabs q in
    let e := ilog2 a in
    let m := round_half_even (a * Qpower 2 (52 - e)) in
    let r := Qred (inject_Z m * Qpower 2 (e - 52)) in
    if Qltb q 0 then - r else r.

(** The magnitude of [q] lies in the normal range of binary64. *)
Definition normal64 (q : Q) : Prop :=
  Qpower 2 (-1022) <= Qabs q /\ Qabs q <= (2 - Qpower 2 (-52)) * Qpower 2 1023.

(* ================================================================== *)
(** ** The NumPy routines the module calls

    NumPy is a library, not part of the repository; these definitions follow
    its documented behaviour and, for [interp], the order of the tests of its
    implementation. *)

Module Np.

(** [np.arange(start, stop, step)] on doubles: the number of values is the
    ceiling of the quotient [(stop - start)/step] as computed in binary64
    (a rounded difference divided with rounding), none when it is not
    positive; the values are [start + i*step]; a zero step is an error. *)
Definition arange (fl : Q -> Q) (start stop step : Q) : result (list Q) :=
  if Qeq_bool step 0 then Raise ZeroDivisionError
  else
    let n := Z.to_nat (Qceiling (fl (fl (stop - start) / step))) in
    Ok (map (fun i => start + inject_Z (Z.of_nat i) * step) (seq 0 n)).

(** The search of [np.interp] inside the sample range: starting from
    position [j] with [arr[j] <= key], advance while the next sample is
    still [<= key].  On non-decreasing samples this is the last position
    whose sample is [<= key], which is what the bisection of longer arrays
    returns as well. *)
Fixpoint scan (key : Q) (rest : list Q) (j : nat) : nat :=
  match rest with
  | [] => j
  | a :: rest' => if Qle_bool a key then scan key rest' (S j) else j
  end.

(** One interpolated value.  [xp] and [fp] are non-empty and of the same
    length here; [x0], [f0] are their first items. *)
Definition interp1 (xp fp : list Q) (x0 f0 : Q) (key : Q) : Q :=
  if Qltb (List.last xp x0) key then List.last fp f0          (* right *)
  else if Qltb key x0 then f0                                 (* left *)
  else
    let j := scan key (tl xp) 0 in
    let xj := nth j xp 0 in
    let fj := nth j fp 0 in
    if Nat.eqb j (length xp - 1) then fj
    else if Qeq_bool xj key then fj
    else
      let slope := (nth (S j) fp 0 - fj) / (nth (S j) xp 0 - xj) in
      slope * (key - xj) + fj.

(** [np.interp(x, xp, fp)]: piecewise linear interpolation, constant
    outside the sample range.  [ValueError] when the samples are empty or
    [xp] and [fp] differ in length. *)
Definition interp (x xp fp : list Q) : result (list Q) :=
  match xp, fp with
  | x0 :: _, f0 :: _ =>
      if Nat.eqb (length xp) (length fp)
      then Ok (map (interp1 xp fp x0 f0) x)
      else Raise ValueError
  | _, _ => Raise ValueError
  end.

(** [np.argmax] of a boolean array: the position of the first [True], 0
    when there is none; [ValueError] on an empty array. *)
Fixpoint first_true (l : list bool) : option nat :=
  match l with
  | [] => None
  | b :: l' => if b then Some O
               else match first_true l' with
                    | Some k => Some (S k)
                    | None => None
                    end
  end.

Definition argmax (l : list bool) : result nat :=
  match l with
  | [] => Raise ValueError
  | _ => Ok (match first_true l with Some k => k | None => O end)
  end.

End Np.

(* ================================================================== *)
(** ** Normalisation *)

(** [fl] is the rounding of one binary64 operation: of the difference
    [max(t) - min(t)], of its quotient by [length], and of the quotient
    inside [np.arange]. *)
Definition even_time_steps (fl : Q -> Q) (x y t : list Q) (length : Z)
  : result (list Q * list Q * list Q) :=
  lo <- Py.min Qltb t ;;
  hi <- Py.max Qltb t ;;
  step <- py_div fl (fl (hi - lo)) (inject_Z length) ;;
  nt <- Np.arange fl lo hi step ;;
  nx <- Np.interp nt t x ;;
  ny <- Np.interp nt t y ;;
  Ok (nx, ny, nt).

Definition normalize_space (array : list Q) (start end_ : Q) : result (list Q) :=
  a_last <- Py.last array ;;
  a_first <- Py.first array ;;
  let old_delta := a_last - a_first in
  let new_delta := end_ - start in
  let old_range := [a_first - old_delta; a_last + old_delta] in
  let new_range := [start - new_delta; end_ + new_delta] in
  Np.interp array old_range new_range.

(** An array as [np.array] builds it from a Python list: 64-bit integers
    when every item is an [int], doubles otherwise. *)
Inductive ndarray : Type :=
| Int64 (items : list Z)
| Float64 (items : list Q).

(** Arithmetic on 64-bit integers wraps around. *)
Definition wrap64 (z : Z) : Z := ((z + 2 ^ 63) mod 2 ^ 64 - 2 ^ 63)%Z.

Definition remap_right (array : ndarray) : result ndarray :=
  match array with
  | Float64 a =>
      a_last <- Py.last a ;;
      a_first <- Py.first a ;;
      if Qltb (a_last - a_first) 0
      then
        let array_start := a_first in
        Ok (Float64
              (map (fun v => ((v - array_start) * -(1)) + array_start) a))
      else Ok (Float64 a)
  | Int64 a =>
      a_last <- Py.last a ;;
      a_first <- Py.first a ;;
      if (wrap64 (a_last - a_first) <? 0)%Z
      then
        let array_start := a_first in
        Ok (Int64
              (map (fun v =>
                      wrap64 (wrap64 (wrap64 (v - array_start) * -1)
                              + array_start)%Z) a))
      else Ok (Int64 a)
  end.

(** [fl] rounds the sum [timepoints[-1] + 1], the quotient inside
    [np.arange] and the quotient [max_duration / desired_interval]. *)
Definition uniform_time (fl : Q -> Q) (coordinates timepoints : list Q)
    (desired_interval max_duration : Q) : result (list Q) :=
  t_last <- Py.last timepoints ;;
  regular_timepoints <- Np.arange fl 0 (fl (t_last + 1)) desired_interval ;;
  regular_coordinates <- Np.interp regular_timepoints timepoints coordinates ;;
  ratio <- py_div fl max_duration desired_interval ;;
  let required_length := py_int ratio in
  c_last <- Py.last regular_coordinates ;;
  let extra_values :=
    Py.replicate c_last (required_length - Z.of_nat (length regular_coordinates)) in
  Ok (regular_coordinates ++ extra_values).

(* ================================================================== *)
(** ** Event locator *)

Definition get_init_step (y : list Q) (y_threshold : Q) (ascending : bool)
  : result nat :=
  let started :=
    if ascending then map (fun v => Qgtb v y_threshold) y
    else map (fun v => Qltb v y_threshold) y in
  Np.argmax started.

Definition get_init_time (t y : list Q) (y_threshold : Q) (ascending : bool)
  : result Q :=
  init_step <- get_init_step y y_threshold ascending ;;
  Py.index t init_step.

(* ================================================================== *)
(** ** Signed areas *)

(** The loop shared by [auc] and [auc2]: [i] runs over [idx], [j] is the
    index of the previous round (initially the last index). *)
Fixpoint area_loop (x y : list Q) (idx : list nat) (j : nat) : result (list Q) :=
  match idx with
  | [] => Ok []
  | i :: idx' =>
      yi <- Py.index y i ;;
      xj <- Py.index x j ;;
      let x1y2 := yi * xj in
      xi <- Py.index x i ;;
      yj <- Py.index y j ;;
      let x2y1 := xi * yj in
      let area := x2y1 - x1y2 in
      areas <- area_loop x y idx' i ;;
      Ok (area :: areas)
  end.

Definition auc (x y : list Q) : result Q :=
  areas <- area_loop x y (seq 0 (length x)) (length x - 1) ;;
  Ok (py_sum areas / 2).

Definition auc2 (x y : list Q) : result Q :=
  x_end <- Py.last x ;;
  let x := x ++ [x_end] in
  y_start <- Py.first y ;;
  let y := y ++ [y_start] in
  areas <- area_loop x y (seq 0 (length x)) (length x - 1) ;;
  x_last <- Py.last x ;;
  x_first <- Py.first x ;;
  y_last <- Py.last y ;;
  y_first <- Py.first y ;;
  let triangle := (1 # 2) * Qabs (x_last - x_first) * Qabs (y_last * y_first) in
  Ok (py_sum areas - triangle).

(* ================================================================== *)
(** ** Real arithmetic as Python sees it *)

Definition Rltb (a b : R) : bool := if Rlt_dec a b then true else false.

Definition Rgtb (a b : R) : bool := Rltb b a.

Definition py_divR (a b : R) : result R :=
  if Req_dec_T b 0 then Raise ZeroDivisionError else Ok (a / b)%R.

(* ================================================================== *)
(** ** Relative distance *)

Inductive rel_output : Type :=
| RelCurve (r_d : list R)                 (* [np.array(r_d)] *)
| RelFull (r_d d_1 d_2 : list R).         (* [full_output=True] *)

(** One round of the loop of [rel_distance]: the triple [(rd, d1, d2)]. *)
Definition rel_step (x_path y_path : list R) (rx1 ry1 rx2 ry2 : R) (i : nat)
  : result (R * R * R) :=
  x <- Py.index x_path i ;;
  y <- Py.index y_path i ;;
  let d1 := sqrt ((x - rx1) ^ 2 + (y - ry1) ^ 2) in
  let d2 := sqrt ((x - rx2) ^ 2 + (y - ry2) ^ 2) in
  rd <- py_divR d1 (d1 + d2) ;;
  Ok (rd, d1, d2).

Definition rel_distance (x_path y_path : list R) (full_output : bool)
  : result rel_output :=
  rx1 <- Py.first x_path ;;
  ry1 <- Py.last x_path ;;
  let rx2 := (-1 * rx1)%R in
  let ry2 := ry1 in
  rows <- mapM (rel_step x_path y_path rx1 ry1 rx2 ry2) (seq 0 (length x_path)) ;;
  let r_d := map (fun r => fst (fst r)) rows in
  if full_output
  then Ok (RelFull r_d (map (fun r => snd (fst r)) rows) (map snd rows))
  else Ok (RelCurve r_d).

(** The relative-distance curve as the specification words it: reference
    point 1 is [(x[0], y[-1])], reference point 2 is [(-x[0], y[-1])].  It
    shares the loop body with the source and differs in the reference points
    alone. *)
Definition rel_distance_spec (x_path y_path : list R) : result (list R) :=
  rx1 <- Py.first x_path ;;
  ry1 <- Py.last y_path ;;
  let rx2 := (- rx1)%R in
  let ry2 := ry1 in
  rows <- mapM (rel_step x_path y_path rx1 ry1 rx2 ry2) (seq 0 (length x_path)) ;;
  Ok (map (fun r => fst (fst r)) rows).

(* ================================================================== *)
(** ** Maximum deviation *)

Definition rotate (x y rad : R) : R * R :=
  let s := sin rad in
  let c := cos rad in
  (c * x - s * y, s * x + c * y)%R.

Definition max_deviation (x y : list R) : result R :=
  x_end <- Py.last x ;;
  y_end <- Py.last y ;;
  ratio <- py_divR x_end y_end ;;
  let radians_to_rotate := atan ratio in
  let rot := map (fun p => rotate (fst p) (snd p) radians_to_rotate) (combine x y) in
  let rx := map fst rot in
  let ry := map snd rot in
  lo <- Py.min Rltb rx ;;
  let max_positive := Rabs lo in
  hi <- Py.max Rltb rx ;;
  let max_negative := Rabs hi in
  if Rgtb max_positive max_negative
  then Ok max_positive
  else Ok (-1 * max_negative)%R.

(* ================================================================== *)
(** ** Step lengths *)

(** The NumPy routines of [velocity], on reals. *)
Module NpR.

(** [np.ediff1d]: the differences between consecutive items; none for fewer
    than two items. *)
Fixpoint ediff1d (l : list R) : list R :=
  match l with
  | a :: l' =>
      match l' with
      | b :: _ => (b - a)%R :: ediff1d l'
      | [] => []
      end
  | [] => []
  end.

(** Elementwise pairing of two sequences of the same length. *)
Fixpoint zip_with (f : R -> R -> R) (u v : list R) : list R :=
  match u, v with
  | a :: u', b :: v' => f a b :: zip_with f u' v'
  | _, _ => []
  end.

(** An elementwise binary operation on two one-dimensional arrays: equal
    lengths pair up, a one-item array is stretched over the other, anything
    else is a [ValueError]. *)
Definition broadcast (f : R -> R -> R) (u v : list R) : result (list R) :=
  if Nat.eqb (length u) (length v) then Ok (zip_with f u v)
  else
    match u, v with
    | [a], _ => Ok (map (f a) v)
    | _, [b] => Ok (map (fun a => f a b) u)
    | _, _ => Raise ValueError
    end.

End NpR.

Definition pythag (o a : R) : R := sqrt (o ^ 2 + a ^ 2).

Definition velocity (x y : list R) : result (list R) :=
  let vx := NpR.ediff1d x in
  let vy := NpR.ediff1d y in
  sums <- NpR.broadcast Rplus (map (fun v => v ^ 2)%R vx)
                              (map (fun v => v ^ 2)%R vy) ;;
  let vel := map sqrt sums in
  Ok vel.

(* ================================================================== *)
(** ** Averaging a set of trajectories

    The two columns are sequences of per-trial coordinate sequences;
    [x.iloc[p][i]] is item [i] of trial [p]. *)

(** [np.mean] of a non-empty list. *)
Definition np_mean (l : list Q) : Q :=
  py_sum l / inject_Z (Z.of_nat (length l)).

Inductive average_output : Type :=
| Means (mx my : list Q)                       (* [np.array(mx), np.array(my)] *)
| Columns (fullx fully : list (list Q)).       (* [full_output=True] *)

(** The inner loop of [average_path]: item [i] of every trial, trial by
    trial, x before y. *)
Fixpoint gather (x y : list (list Q)) (i : nat) (ps : list nat)
  : result (list Q * list Q) :=
  match ps with
  | [] => Ok ([], [])
  | p :: ps' =>
      xrow <- Py.index x p ;;
      xv <- Py.index xrow i ;;
      yrow <- Py.index y p ;;
      yv <- Py.index yrow i ;;
      rest <- gather x y i ps' ;;
      Ok (xv :: fst rest, yv :: snd rest)
  end.

Definition average_path (x y : list (list Q)) (full_output : bool)
  : result average_output :=
  row0 <- Py.index x 0 ;;
  let n := length row0 in
  cols <- mapM (fun i => gather x y i (seq 0 (length x))) (seq 0 n) ;;
  let fullx := map fst cols in
  let fully := map snd cols in
  let mx := map np_mean fullx in
  let my := map np_mean fully in
  if full_output then Ok (Columns fullx fully) else Ok (Means mx my).

(* ================================================================== *)
(** ** Vocabulary of the properties *)

(** [crosses th asc v]: the sample [v] is beyond the threshold, above it when
    [asc], below it otherwise. *)
Definition crosses (th : Q) (asc : bool) (v : Q) : Prop :=
  if asc then th < v else v < th.

(** The boolean array built by [get_init_step]. *)
Definition started (y : list Q) (th : Q) (asc : bool) : list bool :=
  if asc then map (fun v => Qgtb v th) y else map (fun v => Qltb v th) y.

(** The mirror of [a] around [c], as [remap_right] writes it. *)
Definition flip (c a : Q) : Q := ((a - c) * -(1)) + c.

(** The same on 64-bit integers, each operation wrapping around. *)
Definition flip64 (c v : Z) : Z :=
  wrap64 (wrap64 (wrap64 (v - c) * -1) + c)%Z.



(** The [i]-th coordinate of a path that is affine in the sample index. *)
Definition affine (a b : Q) (i : nat) : Q := a + b * inject_Z (Z.of_nat i).

(** A coordinate sequence of [n] samples, affine in the index. *)
Definition line (a b : Q) (n : nat) : list Q := map (affine a b) (seq 0 n).

(** The summands of the loop on two affine sequences, without the index
    checks. *)
Fixpoint cross_terms (a b c d : Q) (idx : list nat) (j : nat) : list Q :=
  match idx with
  | [] => []
  | i :: idx' =>
      (affine a b i * affine c d j - affine c d i * affine a b j)
        :: cross_terms a b c d idx' i
  end.

(** [t] never decreases from one sample to a later one. *)
Definition nondecreasing (t : list Q) : Prop :=
  forall i j a b, (i <= j)%nat ->
    nth_error t i = Some a -> nth_error t j = Some b -> a <= b.

(** [lo] and [hi] are [min(t)] and [max(t)]. *)
Definition time_span (t : list Q) (lo hi : Q) : Prop :=
  Py.min Qltb t = Ok lo /\ Py.max Qltb t = Ok hi.



(** The number of timestamps [np.arange] generates inside
    [even_time_steps]: the step is the rounded quotient of the rounded span
    by [N], the count the ceiling of the rounded quotient of the span by the
    step. *)
Definition steps_generated (fl : Q -> Q) (lo hi : Q) (N : Z) : Z :=
  Qceiling (fl (fl (hi - lo) / fl (fl (hi - lo) / inject_Z N))).

(** [N] is a double, and the difference and the quotient that
    [even_time_steps] rounds stay in the normal range of binary64, where
    [b64] is the rounding of the hardware. *)
Definition steps_in_range (fl : Q -> Q) (lo hi : Q) (N : Z) : Prop :=
  (N <= 2 ^ 53)%Z /\ normal64 (hi - lo) /\
  normal64 (fl (hi - lo) / inject_Z N).

(** The numbers of timestamps and of required items of [uniform_time]: the
    ceiling of the rounded quotient of [t[-1] + 1] by the interval, and the
    truncation of the rounded quotient of [max_duration] by the interval. *)
Definition timestamps_generated (fl : Q -> Q) (t_last interval : Q) : Z :=
  Qceiling (fl (fl (t_last + 1) / interval)).

Definition required_length (fl : Q -> Q) (max_duration interval : Q) : Z :=
  py_int (fl (max_duration / interval)).

(** The sum and the quotients that [uniform_time] rounds stay in the normal
    range of binary64. *)
Definition padding_in_range (fl : Q -> Q) (t_last interval max_duration : Q)
  : Prop :=
  normal64 (t_last + 1) /\ normal64 (fl (t_last + 1) / interval) /\
  (max_duration == 0 \/ normal64 (max_duration / interval)).

(** The items of an array as numbers. *)
Definition values (array : ndarray) : list Q :=
  match array with
  | Int64 a => map inject_Z a
  | Float64 a => a
  end.





(** No integer operation of [remap_right] can overflow: a float array, or an
    integer array whose items lie within [2^61] of 0. *)
Definition no_overflow (array : ndarray) : Prop :=
  match array with
  | Float64 _ => True
  | Int64 a => forall v, In v a -> (- 2 ^ 61 <= v <= 2 ^ 61)%Z
  end.

(** The summands of the area loop read with total indexing (0 outside the
    sequence); it agrees with the loop whenever the loop raises nothing. *)
Fixpoint cross_at (x y : list Q) (idx : list nat) (j : nat) : list Q :=
  match idx with
  | [] => []
  | i :: idx' =>
      (nth i x 0 * nth j y 0 - nth i y 0 * nth j x 0) :: cross_at x y idx' i
  end.

(** [x + c] on an array. *)
Definition shift (c : Q) (x : list Q) : list Q := map (fun v => v + c) x.

(** Item [i] of every trial of a column of trajectories. *)
Definition column (i : nat) (x : list (list Q)) : list Q :=
  map (fun row => nth i row 0) x.

(** Every trial of the column has [L] items. *)
Definition rectangular (L : nat) (x : list (list Q)) : Prop :=
  forall row, In row x -> length row = L.

Section RealVocabulary.
Local Open Scope R_scope.

(** The last lines of [max_deviation], on the rotated x coordinates. *)
Definition signed_extreme (rx : list R) : result R :=
  lo <- Py.min Rltb rx ;;
  hi <- Py.max Rltb rx ;;
  if Rgtb (Rabs lo) (Rabs hi) then Ok (Rabs lo) else Ok (-1 * Rabs hi).

(** The signed horizontal offset of the point [p] from the ideal line through
    the origin and [(xe, ye)]: positive to the right of the line. *)
Definition offset (xe ye : R) (p : R * R) : R :=
  (fst p * ye - snd p * xe) / ye.

(** The distance from the point [p] to the line through the origin and
    [(xe, ye)]. *)
Definition line_distance (xe ye : R) (p : R * R) : R :=
  Rabs (fst p * ye - snd p * xe) / sqrt (xe * xe + ye * ye).

(** [x + c] on an array of reals. *)
Definition shiftR (c : R) (x : list R) : list R := map (fun v => v + c) x.

End RealVocabulary.

(* ================================================================== *)
(** * Properties *)

(** Linear arithmetic on [Q] and on [R]. *)
Ltac lraQ := Lqa.lra.
Ltac lraR := Lra.lra.

(** ** Comparisons and the monad *)

Lemma Qltb_lt (a b : Q) : Qltb a b = true <-> a < b.
Proof.
  unfold Qltb. rewrite Qlt_alt. destruct (a ?= b); split; congruence.
Qed.

Lemma Qltb_ge (a b : Q) : Qltb a b = false <-> b <= a.
Proof.
  rewrite <- not_true_iff_false, Qltb_lt. split.
  - apply Qnot_lt_le.
  - apply Qle_not_lt.
Qed.

Lemma Qle_bool_false (a b : Q) : Qle_bool a b = false <-> b < a.
Proof.
  rewrite <- not_true_iff_false, Qle_bool_iff. split.
  - apply Qnot_le_lt.
  - apply Qlt_not_le.
Qed.

Lemma Qeq_bool_false (a b : Q) : Qeq_bool a b = false <-> ~ a == b.
Proof.
  rewrite <- not_true_iff_false, Qeq_bool_iff. tauto.
Qed.

Lemma last_cons (T : Type) (l : list T) (a b : T) :
  List.last (b :: l) a = List.last l b.
Proof.
  revert a b. induction l as [|c l IH]; intros a b; [reflexivity|].
  change (List.last (b :: c :: l) a) with (List.last (c :: l) a).
  now rewrite (IH a c), (IH b c).
Qed.

Lemma nth_error_last (T : Type) (l : list T) (a : T) :
  nth_error (a :: l) (length l) = Some (List.last l a).
Proof.
  revert a. induction l as [|b l IH]; intros a; [reflexivity|].
  rewrite last_cons. apply IH.
Qed.

Lemma last_length (T : Type) (l : list T) :
  l <> [] -> exists a, Py.last l = Ok a /\ nth_error l (length l - 1) = Some a.
Proof.
  destruct l as [|a l]; [congruence|]. intros _.
  exists (List.last l a). split; [reflexivity|].
  simpl length. rewrite Nat.sub_succ, Nat.sub_0_r. apply nth_error_last.
Qed.

(** ** Rounding to binary64 *)

Lemma pow2_pos (e : Z) : 0 < 2 ^ e.
Proof. apply Qpower_0_lt. reflexivity. Qed.

Lemma pow2_mul (a b : Z) : 2 ^ a * 2 ^ b == 2 ^ (a + b).
Proof. symmetry. apply Qpower_plus. intros H; discriminate H. Qed.

Lemma pow2_le (a b : Z) : (a <= b)%Z -> 2 ^ a <= 2 ^ b.
Proof. intros H. apply Qpower_le_compat_l; [exact H | lraQ]. Qed.

Lemma pow2_unique (q : Q) (e e' : Z) :
  2 ^ e <= q -> q < 2 ^ (e + 1) -> 2 ^ e' <= q -> q < 2 ^ (e' + 1) -> e = e'.
Proof.
  intros H1 H2 H3 H4.
  destruct (Z.lt_trichotomy e e') as [H|[H|H]]; [exfalso|exact H|exfalso].
  - assert (H5 : 2 ^ (e + 1) <= 2 ^ e') by (apply pow2_le; lia). lraQ.
  - assert (H5 : 2 ^ (e' + 1) <= 2 ^ e) by (apply pow2_le; lia). lraQ.
Qed.

Lemma Zpow2_Q (a : Z) : (0 <= a)%Z -> inject_Z (2 ^ a) == 2 ^ a.
Proof. intros H. now rewrite Zpower_Qpower. Qed.

(** [ilog2 q] is the exponent of the binade of a positive [q]. *)
Lemma ilog2_spec (q : Q) : 0 < q -> 2 ^ ilog2 q <= q /\ q < 2 ^ (ilog2 q + 1).
Proof.
  intros Hq. destruct q as [n d].
  assert (Hn : (0 < n)%Z) by (unfold Qlt in Hq; simpl in Hq; lia).
  unfold ilog2. cbn [Qnum Qden].
  pose proof (Z.log2_nonneg n) as Ha0.
  pose proof (Z.log2_nonneg (Zpos d)) as Hb0.
  destruct (Z.log2_spec n Hn) as [Ha1 Ha2].
  destruct (Z.log2_spec (Zpos d) eq_refl) as [Hb1 Hb2].
  set (a := Z.log2 n) in *. set (b := Z.log2 (Zpos d)) in *.
  assert (HX1 : 2 ^ a <= inject_Z n).
  { rewrite <- Zpow2_Q by lia. now rewrite <- Zle_Qle. }
  assert (HX2 : inject_Z n < 2 ^ (a + 1)).
  { rewrite <- Zpow2_Q by lia. rewrite <- Zlt_Qlt.
    now rewrite Z.add_1_r. }
  assert (HD1 : 2 ^ b <= inject_Z (Zpos d)).
  { rewrite <- Zpow2_Q by lia. now rewrite <- Zle_Qle. }
  assert (HD2 : inject_Z (Zpos d) < 2 ^ (b + 1)).
  { rewrite <- Zpow2_Q by lia. rewrite <- Zlt_Qlt.
    now rewrite Z.add_1_r. }
  assert (HD0 : 0 < inject_Z (Zpos d)) by reflexivity.
  assert (Hup : n # d < 2 ^ (a - b + 1)).
  { rewrite (Qmake_Qdiv n d). apply Qlt_shift_div_r; [exact HD0|].
    apply Qlt_le_trans with (2 ^ (a - b + 1) * 2 ^ b).
    - rewrite pow2_mul. now replace (a - b + 1 + b)%Z with (a + 1)%Z by lia.
    - rewrite !(Qmult_comm (2 ^ (a - b + 1))).
      apply Qmult_le_compat_r; [exact HD1 | apply Qlt_le_weak, pow2_pos]. }
  assert (Hlo : 2 ^ (a - b - 1) <= n # d).
  { rewrite (Qmake_Qdiv n d). apply Qle_shift_div_l; [exact HD0|].
    apply Qle_trans with (2 ^ (a - b - 1) * 2 ^ (b + 1)).
    - rewrite !(Qmult_comm (2 ^ (a - b - 1))).
      apply Qmult_le_compat_r; [lraQ | apply Qlt_le_weak, pow2_pos].
    - rewrite pow2_mul. now replace (a - b - 1 + (b + 1))%Z with a by lia. }
  destruct (Qle_bool (2 ^ (a - b)) (n # d)) eqn:E.
  - apply Qle_bool_iff in E. split; assumption.
  - split; [exact Hlo|]. replace (a - b - 1 + 1)%Z with (a - b)%Z by lia.
    destruct (Qlt_le_dec (n # d) (2 ^ (a - b))) as [H|H]; [exact H|].
    apply Qle_bool_iff in H. congruence.
Qed.

Lemma round_half_even_mono (p q : Q) :
  p <= q -> (round_half_even p <= round_half_even q)%Z.
Proof.
  intros H. pose proof (Qfloor_resp_le _ _ H) as Hf.
  unfold round_half_even.
  destruct (Z.eq_dec (Qfloor p) (Qfloor q)) as [Ef|Ef].
  - rewrite Ef.
    destruct (Qcompare_spec (p - inject_Z (Qfloor q)) (1 # 2)) as [Ep|Ep|Ep];
      destruct (Qcompare_spec (q - inject_Z (Qfloor q)) (1 # 2)) as [Eq|Eq|Eq];
      destruct (Z.even (Qfloor q)); try lia; exfalso; lraQ.
  - destruct (Qcompare (p - inject_Z (Qfloor p)) (1 # 2));
      destruct (Qcompare (q - inject_Z (Qfloor q)) (1 # 2));
      destruct (Z.even (Qfloor p)); destruct (Z.even (Qfloor q)); lia.
Qed.

Lemma round_half_even_int (q : Q) (k : Z) :
  q == inject_Z k -> round_half_even q = k.
Proof.
  intros H. unfold round_half_even. rewrite (Qfloor_comp _ _ H), Qfloor_Z.
  destruct (Qcompare_spec (q - inject_Z k) (1 # 2)) as [E|E|E];
    [exfalso; lraQ | reflexivity | exfalso; lraQ].
Qed.

Lemma Qabs_positive (q : Q) : 0 < q -> Qabs q = q.
Proof.
  destruct q as [n d]. unfold Qlt. simpl. intros H. unfold Qabs.
  f_equal. lia.
Qed.

(** On a positive number [b64] keeps 53 bits of the significand. *)
Lemma b64_positive (q : Q) :
  0 < q ->
  b64 q == inject_Z (round_half_even (q * 2 ^ (52 - ilog2 q)))
           * 2 ^ (ilog2 q - 52).
Proof.
  intros H. unfold b64.
  assert (E0 : Qeq_bool q 0 = false) by (apply Qeq_bool_false; lraQ).
  assert (E1 : Qltb q 0 = false) by (apply Qltb_ge; lraQ).
  rewrite E0, E1, (Qabs_positive H). apply Qred_correct.
Qed.

Lemma b64_opp (q : Q) : b64 (- q) == - b64 q.
Proof.
  unfold b64.
  assert (Ha : Qabs (- q) = Qabs q).
  { destruct q as [n d]. unfold Qabs, Qopp. cbn [Qnum Qden].
    now rewrite Z.abs_opp. }
  rewrite Ha.
  destruct (Qeq_bool q 0) eqn:E0.
  - apply Qeq_bool_iff in E0.
    assert (E : Qeq_bool (- q) 0 = true) by (apply Qeq_bool_iff; lraQ).
    rewrite E. reflexivity.
  - apply Qeq_bool_false in E0.
    assert (E : Qeq_bool (- q) 0 = false) by (apply Qeq_bool_false; lraQ).
    rewrite E.
    destruct (Qltb q 0) eqn:E1.
    + apply Qltb_lt in E1.
      assert (E2 : Qltb (- q) 0 = false) by (apply Qltb_ge; lraQ).
      rewrite E2. ring.
    + apply Qltb_ge in E1.
      assert (E2 : Qltb (- q) 0 = true) by (apply Qltb_lt; lraQ).
      rewrite E2. reflexivity.
Qed.

Lemma b64_null (q : Q) : q == 0 -> b64 q = 0.
Proof.
  intros H. unfold b64. apply Qeq_bool_iff in H. now rewrite H.
Qed.

Lemma significand_range (q : Q) :
  0 < q ->
  (2 ^ 52 <= round_half_even (q * 2 ^ (52 - ilog2 q)) <= 2 ^ 53)%Z.
Proof.
  intros H. destruct (ilog2_spec H) as [L U].
  set (e := ilog2 q) in *.
  pose proof (pow2_pos (52 - e)) as Hp.
  assert (H1 : inject_Z (2 ^ 52) <= q * 2 ^ (52 - e)).
  { rewrite Zpow2_Q by lia.
    apply Qle_trans with (2 ^ e * 2 ^ (52 - e)).
    - rewrite pow2_mul. replace (e + (52 - e))%Z with 52%Z by lia. apply Qle_refl.
    - apply Qmult_le_compat_r; lraQ. }
  assert (H2 : q * 2 ^ (52 - e) <= inject_Z (2 ^ 53)).
  { rewrite Zpow2_Q by lia.
    apply Qle_trans with (2 ^ (e + 1) * 2 ^ (52 - e)).
    - apply Qmult_le_compat_r; lraQ.
    - rewrite pow2_mul. replace (e + 1 + (52 - e))%Z with 53%Z by lia. apply Qle_refl. }
  apply round_half_even_mono in H1, H2.
  rewrite (@round_half_even_int (inject_Z (2 ^ 52)) (2 ^ 52)) in H1 by reflexivity.
  rewrite (@round_half_even_int (inject_Z (2 ^ 53)) (2 ^ 53)) in H2 by reflexivity.
  split; assumption.
Qed.

Lemma b64_binade (q : Q) :
  0 < q -> 2 ^ ilog2 q <= b64 q /\ b64 q <= 2 ^ (ilog2 q + 1).
Proof.
  intros H. rewrite (b64_positive H).
  destruct (significand_range H) as [L U].
  set (e := ilog2 q) in *. set (m := round_half_even _) in *.
  pose proof (pow2_pos (e - 52)) as Hp.
  rewrite Zle_Qle, Zpow2_Q in L by lia. rewrite Zle_Qle, Zpow2_Q in U by lia.
  split.
  - apply Qle_trans with (2 ^ 52 * 2 ^ (e - 52)).
    + rewrite pow2_mul. replace (52 + (e - 52))%Z with e by lia. apply Qle_refl.
    + apply Qmult_le_compat_r; lraQ.
  - apply Qle_trans with (2 ^ 53 * 2 ^ (e - 52)).
    + apply Qmult_le_compat_r; lraQ.
    + rewrite pow2_mul. replace (53 + (e - 52))%Z with (e + 1)%Z by lia. apply Qle_refl.
Qed.

Lemma b64_positive_mono (p q : Q) : 0 < p -> p <= q -> b64 p <= b64 q.
Proof.
  intros Hp Hpq. assert (Hq : 0 < q) by lraQ.
  destruct (ilog2_spec Hp) as [Lp Up]. destruct (ilog2_spec Hq) as [Lq Uq].
  destruct (b64_binade Hp) as [_ Bp]. destruct (b64_binade Hq) as [Bq _].
  destruct (Z.lt_trichotomy (ilog2 p) (ilog2 q)) as [H|[H|H]].
  - assert (H5 : 2 ^ (ilog2 p + 1) <= 2 ^ ilog2 q) by (apply pow2_le; lia). lraQ.
  - rewrite (b64_positive Hp), (b64_positive Hq), H.
    pose proof (pow2_pos (ilog2 q - 52)) as H1.
    pose proof (pow2_pos (52 - ilog2 q)) as H2.
    apply Qmult_le_compat_r; [|lraQ].
    rewrite <- Zle_Qle. apply round_half_even_mono.
    apply Qmult_le_compat_r; lraQ.
  - exfalso.
    assert (H5 : 2 ^ (ilog2 q + 1) <= 2 ^ ilog2 p) by (apply pow2_le; lia). lraQ.
Qed.

Lemma b64_sign (q : Q) : 0 < q -> 0 < b64 q.
Proof.
  intros H. destruct (b64_binade H) as [L _].
  pose proof (pow2_pos (ilog2 q)). lraQ.
Qed.

Lemma b64_mono (p q : Q) : p <= q -> b64 p <= b64 q.
Proof.
  intros H.
  destruct (Q_dec p 0) as [[Hp|Hp]|Hp].
  - (* p < 0 *)
    assert (Hp' : 0 < - p) by lraQ.
    pose proof (b64_sign Hp') as Sp. pose proof (b64_opp p) as Op.
    destruct (Q_dec q 0) as [[Hq|Hq]|Hq].
    + assert (Hq' : 0 < - q) by lraQ.
      pose proof (b64_opp q) as Oq.
      assert (M : b64 (- q) <= b64 (- p)) by (apply b64_positive_mono; lraQ).
      lraQ.
    + pose proof (b64_sign Hq). lraQ.
    + rewrite (b64_null Hq). lraQ.
  - pose proof (b64_positive_mono Hp H). assumption.
  - rewrite (b64_null Hp).
    destruct (Q_dec q 0) as [[Hq|Hq]|Hq].
    + exfalso. lraQ.
    + pose proof (b64_sign Hq). lraQ.
    + rewrite (b64_null Hq). lraQ.
Qed.

Lemma b64_comp (p q : Q) : p == q -> b64 p == b64 q.
Proof.
  intros H. apply Qle_antisym; apply b64_mono; lraQ.
Qed.

(** A positive number with at most 53 significant bits is left alone. *)
Lemma b64_fixed (r : Q) (e m : Z) :
  (2 ^ 52 <= m < 2 ^ 53)%Z -> r == inject_Z m * 2 ^ (e - 52) -> b64 r == r.
Proof.
  intros [L U] Hr.
  pose proof (pow2_pos (e - 52)) as Hp.
  rewrite Zle_Qle, Zpow2_Q in L by lia. rewrite Zlt_Qlt, Zpow2_Q in U by lia.
  assert (B1 : 2 ^ e <= r).
  { rewrite Hr. apply Qle_trans with (2 ^ 52 * 2 ^ (e - 52)).
    - rewrite pow2_mul. replace (52 + (e - 52))%Z with e by lia. apply Qle_refl.
    - apply Qmult_le_compat_r; lraQ. }
  assert (B2 : r < 2 ^ (e + 1)).
  { rewrite Hr. apply Qlt_le_trans with (2 ^ 53 * 2 ^ (e - 52)).
    - apply Qmult_lt_compat_r; lraQ.
    - rewrite pow2_mul. replace (53 + (e - 52))%Z with (e + 1)%Z by lia. apply Qle_refl. }
  assert (H0 : 0 < r) by (pose proof (pow2_pos e); lraQ).
  destruct (ilog2_spec H0) as [L' U'].
  assert (E : ilog2 r = e) by (apply (@pow2_unique r (ilog2 r) e L' U' B1 B2)).
  rewrite (b64_positive H0), E.
  rewrite (@round_half_even_int _ m); [symmetry; exact Hr|].
  rewrite Hr, <- Qmult_assoc, pow2_mul.
  replace (e - 52 + (52 - e))%Z with 0%Z by lia. change (2 ^ 0) with 1. ring.
Qed.

Lemma b64_idem_positive (q : Q) : 0 < q -> b64 (b64 q) == b64 q.
Proof.
  intros H. destruct (significand_range H) as [L U].
  pose proof (b64_positive H) as Hr.
  set (e := ilog2 q) in *. set (m := round_half_even _) in *.
  destruct (Z.eq_dec m (2 ^ 53)) as [E|E].
  - apply (@b64_fixed (b64 q) (e + 1) (2 ^ 52)); [lia|].
    rewrite Hr, E, !Zpow2_Q, !pow2_mul by lia.
    now replace (53 + (e - 52))%Z with (52 + (e + 1 - 52))%Z by lia.
  - apply (@b64_fixed (b64 q) e m); [lia | exact Hr].
Qed.

Lemma b64_idem (q : Q) : b64 (b64 q) == b64 q.
Proof.
  destruct (Q_dec q 0) as [[Hq|Hq]|Hq].
  - assert (Hq' : 0 < - q) by lraQ.
    pose proof (b64_opp q) as Oq. pose proof (b64_idem_positive Hq') as I.
    assert (E : b64 q == - b64 (- q)) by lraQ.
    rewrite (b64_comp E) at 1. rewrite b64_opp, I. lraQ.
  - now apply b64_idem_positive.
  - rewrite (b64_null Hq). reflexivity.
Qed.

(** [b64] is a rounding in the sense above. *)
Lemma b64_rounding : rounding b64.
Proof.
  constructor.
  - exact b64_comp.
  - exact b64_mono.
  - exact b64_idem.
  - reflexivity.
  - vm_compute. reflexivity.
  - intros q Hq.
    destruct (Q_dec q 0) as [[H|H]|H].
    + assert (H' : 0 < - q) by lraQ.
      pose proof (b64_sign H'). pose proof (b64_opp q). lraQ.
    + pose proof (b64_sign H). lraQ.
    + contradiction.
Qed.

(** Rounding, as far as it is assumed. *)
Lemma fl_nonneg (fl : Q -> Q) (q : Q) : rounding fl -> 0 <= q -> 0 <= fl q.
Proof. intros H Hq. rewrite <- (fl_zero H). now apply (fl_mono H). Qed.

Lemma fl_nonpos (fl : Q -> Q) (q : Q) : rounding fl -> q <= 0 -> fl q <= 0.
Proof. intros H Hq. rewrite <- (fl_zero H). now apply (fl_mono H). Qed.

Lemma fl_pos (fl : Q -> Q) (q : Q) : rounding fl -> 0 < q -> 0 < fl q.
Proof.
  intros H Hq. assert (H0 : 0 <= fl q) by (apply fl_nonneg; [exact H | lraQ]).
  assert (H1 : ~ fl q == 0) by (apply (fl_nonzero H); lraQ).
  lraQ.
Qed.

Lemma fl_ge_one (fl : Q -> Q) (q : Q) : rounding fl -> 1 <= q -> 1 <= fl q.
Proof. intros H Hq. rewrite <- (fl_one H). now apply (fl_mono H). Qed.

Lemma rounding_exact : rounding (fun q => q).
Proof. constructor; auto; reflexivity. Qed.

(** ** Event locator *)

Lemma first_true_some (l : list bool) (k : nat) :
  Np.first_true l = Some k ->
  nth_error l k = Some true /\
  forall j, (j < k)%nat -> nth_error l j = Some false.
Proof.
  revert k. induction l as [|b l IH]; intros k; simpl; [discriminate|].
  destruct b.
  - intros [= <-]. split; [reflexivity|]. intros j Hj. lia.
  - destruct (Np.first_true l) as [k'|]; [|discriminate].
    intros [= <-]. destruct (IH k' eq_refl) as [Hk Hlt].
    split; [exact Hk|]. intros [|j] Hj; [reflexivity|]. apply Hlt. lia.
Qed.

Lemma first_true_none (l : list bool) :
  Np.first_true l = None -> forall b, In b l -> b = false.
Proof.
  induction l as [|b l IH]; simpl; [tauto|].
  destruct b; [discriminate|].
  destruct (Np.first_true l); [discriminate|].
  intros _ b [<-|Hb]; [reflexivity|]. now apply IH.
Qed.

Lemma argmax_bound (l : list bool) :
  l <> [] -> exists k, Np.argmax l = Ok k /\ (k < length l)%nat.
Proof.
  destruct l as [|b l]; [congruence|]. intros _.
  eexists. split; [reflexivity|].
  destruct (Np.first_true (b :: l)) as [k|] eqn:E.
  - apply first_true_some in E. destruct E as [E _].
    apply nth_error_Some. congruence.
  - simpl. lia.
Qed.

Lemma started_length y th asc : length (started y th asc) = length y.
Proof. unfold started. destruct asc; apply length_map. Qed.

Lemma started_nth y th asc k b :
  nth_error (started y th asc) k = Some b ->
  exists v, nth_error y k = Some v /\ (b = true <-> crosses th asc v).
Proof.
  unfold started, crosses, Qgtb. destruct asc; rewrite nth_error_map;
    destruct (nth_error y k) as [v|]; simpl; try discriminate;
    intros [= <-]; exists v; (split; [reflexivity|]); apply Qltb_lt.
Qed.

(** C8.  On a non-empty [y], [get_init_step] returns the index of the first
    sample beyond the threshold ([y[i] > threshold] when ascending,
    [y[i] < threshold] otherwise), and index 0 when no sample is beyond it;
    on [[0, 0, 0.02, 0.5]] with threshold 0.01, ascending, it returns 2. *)
Theorem get_init_step_first_crossing (y : list Q) (th : Q) (asc : bool)
    (Hy : y <> []) :
  (exists k, get_init_step y th asc = Ok k /\
     ((exists v, nth_error y k = Some v /\ crosses th asc v /\
         forall j w, (j < k)%nat -> nth_error y j = Some w -> ~ crosses th asc w)
      \/ (k = 0%nat /\ forall w, In w y -> ~ crosses th asc w)))
  /\ get_init_step [0; 0; 2 # 100; 1 # 2] (1 # 100) true = Ok 2%nat.
Proof.
  split; [|reflexivity].
  change (get_init_step y th asc) with (Np.argmax (started y th asc)).
  assert (Hs : started y th asc <> []).
  { intros E. apply Hy. apply length_zero_iff_nil.
    rewrite <- (started_length y th asc), E. reflexivity. }
  unfold Np.argmax. destruct (started y th asc) as [|b0 s0] eqn:Es; [congruence|].
  rewrite <- Es in *. clear Es Hs b0 s0.
  destruct (Np.first_true (started y th asc)) as [k|] eqn:E; eexists; (split; [reflexivity|]).
  - left. apply first_true_some in E. destruct E as [Hk Hlt].
    apply started_nth in Hk. destruct Hk as (v & Hv & Hc).
    exists v. repeat split; [exact Hv | now apply Hc |].
    intros j w Hj Hw Hcr. specialize (Hlt j Hj).
    apply started_nth in Hlt. destruct Hlt as (w' & Hw' & Hc').
    assert (w' = w) by congruence. subst w'.
    apply Hc' in Hcr. discriminate.
  - right. split; [reflexivity|]. intros w Hw Hcr.
    apply In_nth_error in Hw. destruct Hw as [j Hj].
    destruct (nth_error (started y th asc) j) as [b|] eqn:Eb.
    + pose proof (first_true_none _ E b (nth_error_In _ _ Eb)) as Hb.
      apply started_nth in Eb. destruct Eb as (w' & Hw' & Hc').
      assert (w' = w) by congruence. subst w'.
      apply Hc' in Hcr. congruence.
    + apply nth_error_None in Eb. rewrite started_length in Eb.
      apply nth_error_None in Eb. congruence.
Qed.

Lemma get_init_step_first_crossing_witness :
  (exists k, get_init_step [0; 0; 2 # 100; 1 # 2] (1 # 100) true = Ok k /\
     ((exists v, nth_error [0; 0; 2 # 100; 1 # 2] k = Some v /\
         crosses (1 # 100) true v /\
         forall j w, (j < k)%nat ->
           nth_error [0; 0; 2 # 100; 1 # 2] j = Some w ->
           ~ crosses (1 # 100) true w)
      \/ (k = 0%nat /\
          forall w, In w [0; 0; 2 # 100; 1 # 2] -> ~ crosses (1 # 100) true w)))
  /\ get_init_step [0; 0; 2 # 100; 1 # 2] (1 # 100) true = Ok 2%nat.
Proof.
  apply (@get_init_step_first_crossing [0; 0; 2 # 100; 1 # 2] (1 # 100) true).
  discriminate.
Defined.

(** C10.  On a non-empty [y] the index returned by [get_init_step] is below
    [len(y)]; hence, for [t] of the same length, [get_init_time] reads
    [t[init_step]] in bounds and returns a timestamp of [t]. *)
Theorem get_init_time_in_bounds (t y : list Q) (th : Q) (asc : bool)
    (Hy : y <> []) (Hlen : length t = length y) :
  exists k v,
    get_init_step y th asc = Ok k /\ (k < length y)%nat /\
    nth_error t k = Some v /\ get_init_time t y th asc = Ok v.
Proof.
  assert (Hs : started y th asc <> []).
  { intros E. apply Hy. apply length_zero_iff_nil.
    rewrite <- (started_length y th asc), E. reflexivity. }
  destruct (argmax_bound Hs) as (k & Hk & Hb).
  rewrite started_length in Hb.
  destruct (nth_error t k) as [v|] eqn:Ev.
  - exists k, v. unfold get_init_time.
    change (get_init_step y th asc) with (Np.argmax (started y th asc)).
    rewrite Hk. simpl. unfold Py.index. rewrite Ev. auto.
  - apply nth_error_None in Ev. lia.
Qed.

Lemma get_init_time_in_bounds_witness :
  exists k v,
    get_init_step [0; 0; 2 # 100; 1 # 2] (1 # 100) true = Ok k /\
    (k < length ([0; 0; 2 # 100; 1 # 2])%Q)%nat /\
    nth_error ([0; 10; 20; 30] : list Q) k = Some v /\
    get_init_time [0; 10; 20; 30] [0; 0; 2 # 100; 1 # 2] (1 # 100) true = Ok v.
Proof.
  apply (@get_init_time_in_bounds [0; 10; 20; 30] [0; 0; 2 # 100; 1 # 2]).
  - discriminate.
  - reflexivity.
Defined.

(** ** Canonical direction *)

Lemma last_map (A B : Type) (f : A -> B) (l : list A) (d : A) :
  List.last (map f l) (f d) = f (List.last l d).
Proof.
  revert d. induction l as [|a l IH]; intros d; [reflexivity|].
  change (map f (a :: l)) with (f a :: map f l).
  now rewrite !last_cons.
Qed.

Lemma last_in (T : Type) (l : list T) (a : T) : In (List.last l a) (a :: l).
Proof.
  pose proof (nth_error_last l a) as H. now apply nth_error_In in H.
Qed.

Lemma remap_right_float_cons (c0 : Q) (l : list Q) :
  remap_right (Float64 (c0 :: l)) =
  if Qltb (List.last l c0 - c0) 0
  then Ok (Float64 (map (flip c0) (c0 :: l)))
  else Ok (Float64 (c0 :: l)).
Proof. reflexivity. Qed.

Lemma remap_right_int_cons (c0 : Z) (l : list Z) :
  remap_right (Int64 (c0 :: l)) =
  if (wrap64 (List.last l c0 - c0) <? 0)%Z
  then Ok (Int64 (map (flip64 c0) (c0 :: l)))
  else Ok (Int64 (c0 :: l)).
Proof. reflexivity. Qed.

Lemma wrap64_small (z : Z) : (- 2 ^ 63 <= z < 2 ^ 63)%Z -> wrap64 z = z.
Proof.
  intros H. unfold wrap64.
  change (2 ^ 63)%Z with 9223372036854775808%Z in *.
  change (2 ^ 64)%Z with 18446744073709551616%Z.
  rewrite Z.mod_small; lia.
Qed.

Lemma flip64_small (c v : Z) :
  (- 2 ^ 61 <= c <= 2 ^ 61)%Z -> (- 2 ^ 61 <= v <= 2 ^ 61)%Z ->
  flip64 c v = (2 * c - v)%Z.
Proof.
  intros Hc Hv. unfold flip64.
  change (2 ^ 61)%Z with 2305843009213693952%Z in *.
  rewrite (@wrap64_small (v - c)%Z);
    [|change (2 ^ 63)%Z with 9223372036854775808%Z; lia].
  rewrite (@wrap64_small ((v - c) * -1)%Z);
    [|change (2 ^ 63)%Z with 9223372036854775808%Z; lia].
  rewrite wrap64_small;
    [|change (2 ^ 63)%Z with 9223372036854775808%Z; lia].
  lia.
Qed.




(** ** Range normalisation *)





(** ** Signed areas of a straight path *)

Lemma line_length a b n : length (line a b n) = n.
Proof. unfold line. now rewrite length_map, length_seq. Qed.

Lemma line_index a b n i :
  (i < n)%nat -> Py.index (line a b n) i = Ok (affine a b i).
Proof.
  intros Hi. unfold Py.index, line.
  rewrite nth_error_map, nth_error_seq.
  destruct (Nat.ltb_spec i n) as [_|Hge]; [reflexivity|lia].
Qed.

Lemma affine_succ a b i : affine a b (S i) == affine a b i + b.
Proof.
  unfold affine. rewrite Nat2Z.inj_succ. unfold Z.succ.
  rewrite inject_Z_plus. change (inject_Z 1) with 1. ring.
Qed.

Lemma area_loop_line a b c d n k m j :
  (k + m <= n)%nat -> (j < n)%nat ->
  area_loop (line a b n) (line c d n) (seq k m) j
  = Ok (cross_terms a b c d (seq k m) j).
Proof.
  revert k j. induction m as [|m IH]; intros k j Hk Hj; [reflexivity|].
  cbn [seq area_loop cross_terms].
  rewrite !line_index by lia. cbn [bind].
  rewrite IH by lia. reflexivity.
Qed.

Lemma fold_left_Qplus_acc (l : list Q) (acc : Q) :
  fold_left Qplus l acc == acc + fold_left Qplus l 0.
Proof.
  revert acc. induction l as [|q l IH]; intros acc; cbn [fold_left].
  - ring.
  - rewrite (IH (acc + q)), (IH (0 + q)). ring.
Qed.

Lemma py_sum_cons (q : Q) (l : list Q) : py_sum (q :: l) == q + py_sum l.
Proof.
  unfold py_sum. cbn [fold_left]. rewrite fold_left_Qplus_acc. ring.
Qed.

(** Consecutive samples of a straight path all contribute the same term. *)
Lemma cross_terms_consecutive a b c d k m :
  py_sum (cross_terms a b c d (seq (S k) m) k)
  == inject_Z (Z.of_nat m) * (b * c - a * d).
Proof.
  revert k. induction m as [|m IH]; intros k.
  - cbn. ring.
  - cbn [seq cross_terms]. rewrite py_sum_cons, IH.
    rewrite Nat2Z.inj_succ. unfold Z.succ. rewrite inject_Z_plus.
    change (inject_Z 1) with 1. rewrite affine_succ, (affine_succ c d k).
    unfold affine. ring.
Qed.

(** The [auc] half of C3: on a path whose [x] and [y] are affine in the sample
    index, [auc] returns 0. *)
Lemma auc_straight_line (a b c d : Q) (n : nat) :
  exists r, auc (line a b n) (line c d n) = Ok r /\ r == 0.
Proof.
  unfold auc. rewrite line_length.
  destruct n as [|n].
  - eexists. split; [reflexivity|]. reflexivity.
  - rewrite area_loop_line by lia. cbn [bind]. eexists. split; [reflexivity|].
    rewrite Nat.sub_succ, Nat.sub_0_r.
    cbn [seq cross_terms]. rewrite py_sum_cons, cross_terms_consecutive.
    unfold affine. change (inject_Z (Z.of_nat 0)) with 0. field.
Qed.

(** C3 holds for [auc] but not for [auc2]: on the straight path from (0,0) to
    (1,1) [auc] returns 0 while [auc2] returns 1.  The shoelace sum of [auc2]
    is not halved, and its triangle is computed from [y[-1]*y[0]] after the
    point [(x[-1], y[0])] has been appended, that is from [y[0]*y[0]]. *)
Theorem auc2_straight_line_nonzero :
  line 0 1 2 = [0; 1] /\
  (exists r, auc (line 0 1 2) (line 0 1 2) = Ok r /\ r == 0) /\
  (exists r, auc2 (line 0 1 2) (line 0 1 2) = Ok r /\ r == 1 /\ ~ r == 0).
Proof.
  split; [reflexivity|]. split.
  - apply auc_straight_line.
  - eexists. split; [reflexivity|]. split; [reflexivity|]. intros H. discriminate H.
Qed.

(** ** Time normalisation *)



(** The run of [even_time_steps] on well-formed input: the step is
    positive, [np.arange] generates at least one timestamp, and the three
    sequences come back. *)
Lemma even_time_steps_run (fl : Q -> Q) (x0 y0 t0 : Q) (xs ys ts : list Q)
    (N : Z) (lo hi : Q) :
  rounding fl -> length xs = length ts -> length ys = length ts ->
  time_span (t0 :: ts) lo hi -> lo < hi -> (1 <= N)%Z ->
  let step := fl (fl (hi - lo) / inject_Z N) in
  let nt := map (fun i => lo + inject_Z (Z.of_nat i) * step)
              (seq 0 (Z.to_nat (steps_generated fl lo hi N))) in
  0 < step /\ (1 <= steps_generated fl lo hi N)%Z /\
  even_time_steps fl (x0 :: xs) (y0 :: ys) (t0 :: ts) N
  = Ok (map (Np.interp1 (t0 :: ts) (x0 :: xs) t0 x0) nt,
        map (Np.interp1 (t0 :: ts) (y0 :: ys) t0 y0) nt, nt).
Proof.
  intros Hfl Hx Hy [Hmin Hmax] Hlt HN step nt.
  assert (HNq : 1 <= inject_Z N).
  { change 1 with (inject_Z 1). rewrite <- Zle_Qle. exact HN. }
  assert (Hd : 0 < fl (hi - lo)) by (apply fl_pos; [exact Hfl | lraQ]).
  assert (Hquot : 0 < fl (hi - lo) / inject_Z N).
  { apply Qlt_shift_div_l; lraQ. }
  assert (Hstep : 0 < step) by (apply fl_pos; assumption).
  assert (Hle : step <= fl (hi - lo)).
  { apply Qle_trans with (fl (fl (hi - lo))).
    - apply (fl_mono Hfl). apply Qle_shift_div_r; [lraQ|].
      assert (P : 0 <= fl (hi - lo) * (inject_Z N - 1))
        by (apply Qmult_le_0_compat; lraQ).
      assert (P' : fl (hi - lo) * (inject_Z N - 1)
                   == fl (hi - lo) * inject_Z N - fl (hi - lo)) by ring.
      lraQ.
    - rewrite (fl_idem Hfl). apply Qle_refl. }
  assert (Hone : 1 <= fl (fl (hi - lo) / step)).
  { apply fl_ge_one; [exact Hfl|]. apply Qle_shift_div_l; lraQ. }
  assert (Hn : (1 <= steps_generated fl lo hi N)%Z).
  { unfold steps_generated. fold step. rewrite Zle_Qle.
    apply Qle_trans with (fl (fl (hi - lo) / step));
      [exact Hone | apply Qle_ceiling]. }
  split; [exact Hstep|]. split; [exact Hn|].
  unfold even_time_steps. rewrite Hmin, Hmax. cbn [bind]. unfold py_div.
  assert (EN : Qeq_bool (inject_Z N) 0 = false) by (apply Qeq_bool_false; lraQ).
  rewrite EN. cbn [bind]. fold step. unfold Np.arange.
  assert (ES : Qeq_bool step 0 = false) by (apply Qeq_bool_false; lraQ).
  rewrite ES. cbn [bind]. unfold Np.interp.
  assert (Ex : Nat.eqb (length (t0 :: ts)) (length (x0 :: xs)) = true)
    by (apply Nat.eqb_eq; simpl; lia).
  assert (Ey : Nat.eqb (length (t0 :: ts)) (length (y0 :: ys)) = true)
    by (apply Nat.eqb_eq; simpl; lia).
  rewrite Ex, Ey. reflexivity.
Qed.

(** At a key equal to the first sample time, when the second sample is
    strictly later, [interp1] returns the first sample value. *)
Lemma interp1_at_first (t0 t1 x0 key : Q) (ts xs : list Q) :
  key == t0 -> t0 < t1 -> t0 <= List.last (t1 :: ts) t0 ->
  Np.interp1 (t0 :: t1 :: ts) (x0 :: xs) t0 x0 key = x0.
Proof.
  intros Hk H01 Hlast. unfold Np.interp1.
  rewrite !last_cons. rewrite last_cons in Hlast.
  assert (E1 : Qltb (List.last ts t1) key = false)
    by (apply Qltb_ge; rewrite Hk; exact Hlast).
  assert (E2 : Qltb key t0 = false) by (apply Qltb_ge; rewrite Hk; apply Qle_refl).
  rewrite E1, E2. cbn [tl Np.scan].
  assert (E3 : Qle_bool t1 key = false) by (apply Qle_bool_false; now rewrite Hk).
  rewrite E3. cbn [nth length Nat.sub Nat.eqb].
  assert (E4 : Qeq_bool t0 key = true) by (apply Qeq_bool_iff; now symmetry).
  now rewrite E4.
Qed.






(** ** Uniform-time padding *)

Lemma py_last_nonempty (T : Type) (l : list T) :
  l <> [] -> exists a, Py.last l = Ok a.
Proof.
  intros H. destruct (last_length H) as (a & Ha & _). now exists a.
Qed.

(** What [uniform_time] returns on well-formed input with a positive
    interval: the resampled sequence [regular], one item per generated
    timestamp, followed by copies of its last item; the number of copies is
    the required length minus [len(regular)], none when that is not
    positive. *)
Lemma uniform_time_shape (fl : Q -> Q) (coordinates timepoints : list Q)
    (interval max_duration t_last : Q) :
  rounding fl ->
  length coordinates = length timepoints ->
  Py.last timepoints = Ok t_last ->
  0 < interval -> 0 < t_last + 1 ->
  exists regular c_last,
    Z.of_nat (length regular) = timestamps_generated fl t_last interval /\
    (1 <= timestamps_generated fl t_last interval)%Z /\
    Py.last regular = Ok c_last /\
    uniform_time fl coordinates timepoints interval max_duration
    = Ok (regular ++
          repeat c_last
            (Z.to_nat (required_length fl max_duration interval
                       - Z.of_nat (length regular)))).
Proof.
  intros Hfl Hlen Hlast Hint Hpos.
  assert (Hq : Qceiling (fl (fl (fl (t_last + 1) - 0) / interval))
               = Qceiling (fl (fl (t_last + 1) / interval))).
  { apply Qceiling_comp, (fl_proper Hfl).
    assert (E : fl (fl (t_last + 1) - 0) == fl (t_last + 1)).
    { rewrite <- (fl_idem Hfl (t_last + 1)) at 2.
      apply (fl_proper Hfl). ring. }
    rewrite E. reflexivity. }
  assert (Hnum : 0 < fl (t_last + 1)) by (apply fl_pos; assumption).
  assert (Hdiv : 0 < fl (fl (t_last + 1) / interval)).
  { apply fl_pos; [exact Hfl|]. apply Qlt_shift_div_l; [exact Hint | lraQ]. }
  assert (Hceil : (1 <= timestamps_generated fl t_last interval)%Z).
  { pose proof (Qle_ceiling (fl (fl (t_last + 1) / interval))) as Hc.
    assert (Hz : inject_Z 0
                 < inject_Z (timestamps_generated fl t_last interval)).
    { change (inject_Z 0) with 0. unfold timestamps_generated. lraQ. }
    rewrite <- Zlt_Qlt in Hz. lia. }
  unfold timestamps_generated, required_length in *.
  unfold uniform_time. rewrite Hlast. cbn [bind]. unfold Np.arange.
  assert (E0 : Qeq_bool interval 0 = false) by (apply Qeq_bool_false; lraQ).
  rewrite E0, Hq. cbn [bind].
  set (n := Z.to_nat (Qceiling (fl (fl (t_last + 1) / interval)))).
  set (ts := map (fun i => 0 + inject_Z (Z.of_nat i) * interval) (seq 0 n)).
  destruct timepoints as [|t0 tl]; [discriminate Hlast|].
  destruct coordinates as [|c0 cl]; [discriminate Hlen|].
  unfold Np.interp. rewrite Hlen, Nat.eqb_refl. cbn [bind].
  set (regular := map (Np.interp1 (t0 :: tl) (c0 :: cl) t0 c0) ts).
  assert (Hn : length regular = n).
  { unfold regular, ts. now rewrite !length_map, length_seq. }
  assert (Hne : regular <> []).
  { intros E. rewrite E in Hn. simpl in Hn. unfold n in *. lia. }
  destruct (py_last_nonempty Hne) as [c_last Hc].
  exists regular, c_last. unfold py_div. rewrite E0, Hc. cbn [bind].
  split; [rewrite Hn; unfold n; lia|]. repeat split; assumption.
Qed.

Lemma required_length_floor (fl : Q -> Q) (interval max_duration : Q) :
  rounding fl -> 0 < interval -> 0 <= max_duration ->
  required_length fl max_duration interval
  = Qfloor (fl (max_duration / interval)).
Proof.
  intros Hfl Hint Hmax. unfold required_length, py_int.
  assert (E : Qltb (fl (max_duration / interval)) 0 = false).
  { apply Qltb_ge. apply fl_nonneg; [exact Hfl|].
    apply Qle_shift_div_l; [exact Hint | lraQ]. }
  now rewrite E.
Qed.

(** Within the documented range, and as long as the resampled sequence is
    not longer than the required length, the result has exactly the required
    number of items, [floor(max_duration/interval)] on the rounded quotient,
    and ends with the padding. *)
Lemma uniform_time_padded (fl : Q -> Q) (coordinates timepoints : list Q)
    (interval max_duration t_last : Q) :
  rounding fl ->
  length coordinates = length timepoints ->
  Py.last timepoints = Ok t_last ->
  0 < interval -> 0 < t_last + 1 -> 0 <= max_duration ->
  (timestamps_generated fl t_last interval
   <= Qfloor (fl (max_duration / interval)%Q))%Z ->
  exists regular c_last k,
    Py.last regular = Ok c_last /\
    uniform_time fl coordinates timepoints interval max_duration
    = Ok (regular ++ repeat c_last k) /\
    Z.of_nat (length (regular ++ repeat c_last k))
    = Qfloor (fl (max_duration / interval)).
Proof.
  intros Hfl Hlen Hlast Hint Hpos Hmax Hfit.
  destruct (@uniform_time_shape fl coordinates timepoints interval max_duration
              t_last Hfl Hlen Hlast Hint Hpos)
    as (regular & c_last & Hn & Hge & Hc & Hu).
  rewrite (required_length_floor Hfl Hint Hmax) in Hu.
  exists regular, c_last,
    (Z.to_nat (Qfloor (fl (max_duration / interval)%Q)
               - Z.of_nat (length regular))).
  split; [exact Hc|]. split; [exact Hu|].
  rewrite length_app, repeat_length. lia.
Qed.

(** Beyond the documented range nothing is raised and nothing is appended:
    the result is the resampled sequence, at least as long as the required
    length. *)
Lemma uniform_time_beyond_max (fl : Q -> Q) (coordinates timepoints : list Q)
    (interval max_duration t_last : Q) :
  rounding fl ->
  length coordinates = length timepoints ->
  Py.last timepoints = Ok t_last ->
  0 < interval -> 0 <= max_duration -> max_duration < t_last ->
  fl max_duration == max_duration ->
  exists regular,
    uniform_time fl coordinates timepoints interval max_duration = Ok regular /\
    (Qfloor (fl (max_duration / interval)%Q) <= Z.of_nat (length regular))%Z.
Proof.
  intros Hfl Hlen Hlast Hint Hmax Hover Hexact.
  assert (Hpos : 0 < t_last + 1) by lraQ.
  destruct (@uniform_time_shape fl coordinates timepoints interval max_duration
              t_last Hfl Hlen Hlast Hint Hpos)
    as (regular & c_last & Hn & Hge & Hc & Hu).
  rewrite (required_length_floor Hfl Hint Hmax) in Hu.
  unfold timestamps_generated in Hn.
  assert (Hle : (Qfloor (fl (max_duration / interval)%Q)
                 <= Qceiling (fl (fl (t_last + 1) / interval)%Q))%Z).
  { rewrite Zle_Qle.
    apply Qle_trans with (fl (max_duration / interval)); [apply Qfloor_le|].
    apply Qle_trans with (fl (fl (t_last + 1) / interval)); [|apply Qle_ceiling].
    apply (fl_mono Hfl).
    assert (Hnum : max_duration <= fl (t_last + 1)).
    { rewrite <- Hexact. apply (fl_mono Hfl). lraQ. }
    unfold Qdiv. apply Qmult_le_compat_r; [exact Hnum|].
    apply Qlt_le_weak, Qinv_lt_0_compat, Hint. }
  exists regular. split; [|lia].
  rewrite Hu.
  replace (Z.to_nat _) with 0%nat by lia. cbn [repeat]. now rewrite app_nil_r.
Qed.

(** C2 fails on the code: with [t[-1] = 20 > max_duration = 10] nothing is
    raised; [uniform_time] returns the three resampled items, two more than
    [floor(max_duration/interval) = 1]. *)
Theorem uniform_time_over_duration_returns :
  exists r,
    uniform_time b64 [0; 1] [0; 20] 10 10 = Ok r /\
    length r = 3%nat /\ Qfloor (10 / 10) = 1%Z.
Proof.
  eexists. split; [vm_compute; reflexivity|]. split; reflexivity.
Qed.

(** C5 fails on the code at the upper end of the documented range: with
    [t[-1] = max_duration = 3000] and the default interval 10 the resampled
    sequence already has 301 items, the pad count is negative, and the result
    has 301 items instead of [floor(3000/10) = 300]. *)
Theorem uniform_time_boundary_length :
  exists r,
    uniform_time b64 [0; 1] [0; 3000] 10 3000 = Ok r /\
    length r = 301%nat /\ Qfloor (3000 / 10) = 300%Z.
Proof.
  eexists. split; [vm_compute; reflexivity|]. split; reflexivity.
Qed.

(** ** Relative distance and maximum deviation: real arithmetic *)

Open Scope R_scope.

Lemma Rltb_lt (a b : R) : Rltb a b = true <-> a < b.
Proof.
  unfold Rltb. destruct (Rlt_dec a b); split; intros; auto; discriminate.
Qed.

Lemma Rltb_ge (a b : R) : Rltb a b = false <-> b <= a.
Proof.
  unfold Rltb. destruct (Rlt_dec a b); split; intros; auto; try discriminate; lraR.
Qed.

Lemma py_divR_ok (a b : R) : b <> 0 -> py_divR a b = Ok (a / b).
Proof.
  intros H. unfold py_divR. destruct (Req_dec_T b 0); [contradiction|reflexivity].
Qed.

(** Builtin [min] and [max] on reals return an item that bounds all items. *)
Lemma fold_min_spec (l : list R) (a : R) :
  let m := fold_left (fun m b => if Rltb b m then b else m) l a in
  (m = a \/ In m l) /\ m <= a /\ forall b, In b l -> m <= b.
Proof.
  revert a. induction l as [|b l IH]; intros a; cbn [fold_left].
  - repeat split; [now left | lraR | intros b []].
  - destruct (Rltb b a) eqn:E.
    + apply Rltb_lt in E. destruct (IH b) as (Hin & Hle & Hall).
      repeat split.
      * right. destruct Hin as [->|Hin]; [now left | now right].
      * lraR.
      * intros b' [<-|Hb']; [exact Hle | now apply Hall].
    + apply Rltb_ge in E. destruct (IH a) as (Hin & Hle & Hall).
      repeat split.
      * destruct Hin as [->|Hin]; [now left | right; now right].
      * exact Hle.
      * intros b' [<-|Hb']; [lraR | now apply Hall].
Qed.

Lemma fold_max_spec (l : list R) (a : R) :
  let m := fold_left (fun m b => if Rltb m b then b else m) l a in
  (m = a \/ In m l) /\ a <= m /\ forall b, In b l -> b <= m.
Proof.
  revert a. induction l as [|b l IH]; intros a; cbn [fold_left].
  - repeat split; [now left | lraR | intros b []].
  - destruct (Rltb a b) eqn:E.
    + apply Rltb_lt in E. destruct (IH b) as (Hin & Hle & Hall).
      repeat split.
      * right. destruct Hin as [->|Hin]; [now left | now right].
      * lraR.
      * intros b' [<-|Hb']; [exact Hle | now apply Hall].
    + apply Rltb_ge in E. destruct (IH a) as (Hin & Hle & Hall).
      repeat split.
      * destruct Hin as [->|Hin]; [now left | right; now right].
      * exact Hle.
      * intros b' [<-|Hb']; [lraR | now apply Hall].
Qed.

Lemma py_min_spec (l : list R) :
  l <> [] ->
  exists m, Py.min Rltb l = Ok m /\ In m l /\ forall b, In b l -> m <= b.
Proof.
  destruct l as [|a l]; [congruence|]. intros _.
  destruct (fold_min_spec l a) as (Hin & Hle & Hall).
  eexists. split; [reflexivity|]. split.
  - destruct Hin as [->|Hin]; [now left | now right].
  - intros b [<-|Hb]; [exact Hle | now apply Hall].
Qed.

Lemma py_max_spec (l : list R) :
  l <> [] ->
  exists m, Py.max Rltb l = Ok m /\ In m l /\ forall b, In b l -> b <= m.
Proof.
  destruct l as [|a l]; [congruence|]. intros _.
  destruct (fold_max_spec l a) as (Hin & Hle & Hall).
  eexists. split; [reflexivity|]. split.
  - destruct Hin as [->|Hin]; [now left | now right].
  - intros b [<-|Hb]; [exact Hle | now apply Hall].
Qed.

Lemma last_combine (A B : Type) (l : list A) (l' : list B) (a : A) (b : B) :
  length l = length l' ->
  List.last (combine l l') (a, b) = (List.last l a, List.last l' b).
Proof.
  revert l' a b. induction l as [|c l IH]; intros [|c' l'] a b Hlen;
    try discriminate; [reflexivity|].
  cbn [combine]. rewrite !last_cons. apply IH. now injection Hlen.
Qed.

Lemma py_last_combine (x y : list R) (xe ye : R) :
  length x = length y -> Py.last x = Ok xe -> Py.last y = Ok ye ->
  Py.last (combine x y) = Ok (xe, ye).
Proof.
  destruct x as [|a x], y as [|b y]; try discriminate.
  intros Hlen [= <-] [= <-]. cbn [combine Py.last].
  rewrite last_combine; [reflexivity | now injection Hlen].
Qed.

Lemma py_last_in (T : Type) (l : list T) (a : T) : Py.last l = Ok a -> In a l.
Proof.
  destruct l as [|b l]; [discriminate|]. intros [= <-].
  pose proof (nth_error_last l b) as H. now apply nth_error_In in H.
Qed.

Lemma py_last_map (A B : Type) (f : A -> B) (l : list A) (a : A) :
  Py.last l = Ok a -> Py.last (map f l) = Ok (f a).
Proof.
  destruct l as [|b l]; [discriminate|]. intros [= <-].
  cbn [map Py.last]. now rewrite last_map.
Qed.

Lemma cos_atan_pos (r : R) : 0 < cos (atan r).
Proof.
  rewrite cos_atan. apply Rdiv_lt_0_compat; [lraR|].
  apply sqrt_lt_R0. unfold Rsqr. nra.
Qed.

Lemma sin_atan_cos (r : R) : sin (atan r) = r * cos (atan r).
Proof.
  rewrite sin_atan, cos_atan. unfold Rdiv. ring.
Qed.

(** After the rotation the x coordinate of a point is its offset from the
    ideal line, scaled by the positive factor [cos(atan(xe/ye))]. *)
Lemma rotate_offset (xe ye : R) (p : R * R) :
  ye <> 0 ->
  fst (rotate (fst p) (snd p) (atan (xe / ye)))
  = cos (atan (xe / ye)) * offset xe ye p.
Proof.
  intros Hye. unfold rotate, offset. cbn [fst].
  rewrite sin_atan_cos. field. exact Hye.
Qed.

Lemma max_deviation_signed_extreme (x y : list R) (xe ye : R) :
  Py.last x = Ok xe -> Py.last y = Ok ye -> ye <> 0 ->
  max_deviation x y
  = signed_extreme
      (map (fun p => cos (atan (xe / ye)) * offset xe ye p) (combine x y)).
Proof.
  intros Hx Hy Hye. unfold max_deviation, signed_extreme.
  rewrite Hx, Hy. cbn [bind]. rewrite (py_divR_ok xe Hye). cbn [bind].
  rewrite map_map.
  rewrite (map_ext _ (fun p => cos (atan (xe / ye)) * offset xe ye p));
    [reflexivity|].
  intros p. now apply rotate_offset.
Qed.

Lemma offset_endpoint (xe ye : R) : ye <> 0 -> offset xe ye (xe, ye) = 0.
Proof. intros H. unfold offset. cbn [fst snd]. field. exact H. Qed.

Lemma endpoint_rotates_to_zero (x y : list R) (xe ye c : R) :
  length x = length y -> Py.last x = Ok xe -> Py.last y = Ok ye -> ye <> 0 ->
  In 0 (map (fun p => c * offset xe ye p) (combine x y)).
Proof.
  intros Hlen Hx Hy Hye. apply in_map_iff. exists (xe, ye). split.
  - rewrite offset_endpoint by exact Hye. ring.
  - apply py_last_in. now apply py_last_combine.
Qed.

Lemma sqrt_of_square (a r : R) : 0 <= r -> a = r * r -> sqrt a = r.
Proof. intros Hr ->. now apply sqrt_square. Qed.

Lemma rel_step_value (x_path y_path : list R) (rx1 ry1 rx2 ry2 x y d1 d2 : R)
    (i : nat) :
  nth_error x_path i = Some x -> nth_error y_path i = Some y ->
  sqrt ((x - rx1) ^ 2 + (y - ry1) ^ 2) = d1 ->
  sqrt ((x - rx2) ^ 2 + (y - ry2) ^ 2) = d2 ->
  d1 + d2 <> 0 ->
  rel_step x_path y_path rx1 ry1 rx2 ry2 i = Ok (d1 / (d1 + d2), d1, d2).
Proof.
  intros Hx Hy H1 H2 Hne. unfold rel_step, Py.index.
  rewrite Hx, Hy. cbn [bind]. rewrite H1, H2, (py_divR_ok d1 Hne). reflexivity.
Qed.

(** C1 fails on the code: [rel_distance] takes the y coordinate of both
    reference points from [x_path[-1]], not from [y_path[-1]].  On the path
    (3,0), (0,8) the source measures from (3,0) and (-3,0) and returns
    [[0, 1/2]]; with the reference points (3,8) and (-3,8) of the
    specification the curve is [[4/9, 1/2]]. *)
Theorem rel_distance_reference_points :
  rel_distance [3; 0] [0; 8] false = Ok (RelCurve [0; 1 / 2]) /\
  rel_distance_spec [3; 0] [0; 8] = Ok [4 / 9; 1 / 2] /\
  0 <> 4 / 9.
Proof.
  assert (H73 : 0 < sqrt 73) by (apply sqrt_lt_R0; lraR).
  split; [|split; [|lraR]].
  - unfold rel_distance. cbn [Py.first Py.last Py.index nth_error List.last bind
                              length seq mapM].
    rewrite (@rel_step_value [3; 0] [0; 8] 3 0 (-1 * 3) 0 3 0 0 6 0%nat);
      [ | reflexivity | reflexivity
        | rewrite <- sqrt_0; f_equal; ring
        | apply sqrt_of_square; [lraR | ring]
        | lraR ].
    rewrite (@rel_step_value [3; 0] [0; 8] 3 0 (-1 * 3) 0 0 8
               (sqrt 73) (sqrt 73) 1%nat);
      [ | reflexivity | reflexivity | f_equal; ring | f_equal; ring | lraR ].
    cbn [bind map fst snd]. do 3 f_equal; [|f_equal]; field; lraR.
  - unfold rel_distance_spec. cbn [Py.first Py.last Py.index nth_error List.last bind
                                   length seq mapM].
    rewrite (@rel_step_value [3; 0] [0; 8] 3 8 (Ropp 3) 8 3 0 8 10 0%nat);
      [ | reflexivity | reflexivity
        | apply sqrt_of_square; [lraR | ring]
        | apply sqrt_of_square; [lraR | ring]
        | lraR ].
    rewrite (@rel_step_value [3; 0] [0; 8] 3 8 (Ropp 3) 8 0 8 3 3 1%nat);
      [ | reflexivity | reflexivity
        | apply sqrt_of_square; [lraR | ring]
        | apply sqrt_of_square; [lraR | ring]
        | lraR ].
    cbn [bind map fst snd]. do 2 f_equal; [|f_equal]; lraR.
Qed.

(* ================================================================== *)
(** * Further properties of the module *)

(** ** Canonical direction and range normalisation, continued *)

Open Scope Q_scope.

(** The two ends of what [remap_right] returns, as long as no integer
    operation overflows. *)
Lemma remap_right_ends (array : ndarray) (a b : Q) :
  no_overflow array ->
  Py.first (values array) = Ok a -> Py.last (values array) = Ok b ->
  exists r a' b',
    remap_right array = Ok r /\
    length (values r) = length (values array) /\
    Py.first (values r) = Ok a' /\ Py.last (values r) = Ok b' /\
    a' == a /\ b' - a' == Qabs (b - a).
Proof.
  intros Hfit Ha Hb. destruct array as [l0|l0]; cbn [values no_overflow] in *.
  - (* 64-bit integers *)
    destruct l0 as [|c0 l]; [discriminate Ha|]. cbn [map] in Ha, Hb.
    injection Ha as <-. injection Hb as <-. rewrite last_map.
    assert (Hc0 : (- 2 ^ 61 <= c0 <= 2 ^ 61)%Z) by (apply Hfit; now left).
    assert (Hl : (- 2 ^ 61 <= List.last l c0 <= 2 ^ 61)%Z)
      by (apply Hfit, last_in).
    assert (Hd : wrap64 (List.last l c0 - c0) = (List.last l c0 - c0)%Z).
    { apply wrap64_small.
      change (2 ^ 61)%Z with 2305843009213693952%Z in *.
      change (2 ^ 63)%Z with 9223372036854775808%Z. lia. }
    rewrite remap_right_int_cons, Hd.
    destruct (Z.ltb_spec (List.last l c0 - c0) 0) as [Hneg|Hpos].
    + exists (Int64 (map (flip64 c0) (c0 :: l))),
        (inject_Z (flip64 c0 c0)), (inject_Z (flip64 c0 (List.last l c0))).
      split; [reflexivity|]. cbn [values].
      split; [now rewrite !length_map|].
      split; [reflexivity|]. split.
      * cbn [map Py.last]. now rewrite !last_map.
      * rewrite !flip64_small by assumption.
        assert (Hq : inject_Z (List.last l c0) < inject_Z c0)
          by (rewrite <- Zlt_Qlt; lia).
        split.
        -- replace (2 * c0 - c0)%Z with c0 by lia. reflexivity.
        -- rewrite Qabs_neg by lraQ.
           replace (2 * c0 - c0)%Z with c0 by lia.
           replace (2 * c0 - List.last l c0)%Z
             with (c0 + c0 + - List.last l c0)%Z by lia.
           rewrite !inject_Z_plus, inject_Z_opp. ring.
    + exists (Int64 (c0 :: l)), (inject_Z c0), (inject_Z (List.last l c0)).
      split; [reflexivity|]. cbn [values].
      split; [reflexivity|]. split; [reflexivity|]. split.
      * cbn [map Py.last]. now rewrite last_map.
      * assert (Hq : inject_Z c0 <= inject_Z (List.last l c0))
          by (rewrite <- Zle_Qle; lia).
        split; [reflexivity|]. rewrite Qabs_pos by lraQ. reflexivity.
  - (* doubles *)
    destruct l0 as [|c0 l]; [discriminate Ha|].
    injection Ha as <-. injection Hb as <-.
    rewrite remap_right_float_cons.
    destruct (Qltb (List.last l c0 - c0) 0) eqn:E.
    + apply Qltb_lt in E.
      exists (Float64 (map (flip c0) (c0 :: l))),
        (flip c0 c0), (flip c0 (List.last l c0)).
      split; [reflexivity|]. cbn [values]. split; [apply length_map|].
      split; [reflexivity|]. split.
      * cbn [map Py.last]. now rewrite last_map.
      * split; [unfold flip; ring|].
        rewrite Qabs_neg by lraQ. unfold flip. ring.
    + apply Qltb_ge in E.
      exists (Float64 (c0 :: l)), c0, (List.last l c0).
      repeat split; try reflexivity.
      rewrite Qabs_pos by lraQ. reflexivity.
Qed.

(** X1.  On a non-empty array (of doubles, or of 64-bit integers within
    [2^61] of 0) [remap_right] returns an array of the same length that
    starts at the same value and ends [|last - first|] above it: the overall
    change keeps its size and is never negative. *)
Theorem remap_right_canonical (array : ndarray) (a b : Q)
    (Hfit : no_overflow array)
    (Ha : Py.first (values array) = Ok a)
    (Hb : Py.last (values array) = Ok b) :
  exists r a' b',
    remap_right array = Ok r /\
    length (values r) = length (values array) /\
    Py.first (values r) = Ok a' /\ Py.last (values r) = Ok b' /\
    a' == a /\ b' - a' == Qabs (b - a).
Proof. exact (remap_right_ends array Hfit Ha Hb). Qed.

Lemma remap_right_canonical_witness :
  (exists r a' b',
     remap_right (Int64 [10; 9; 8]%Z) = Ok r /\
     length (values r) = length (values (Int64 [10; 9; 8]%Z)) /\
     Py.first (values r) = Ok a' /\ Py.last (values r) = Ok b' /\
     a' == 10 /\ b' - a' == Qabs (8 - 10)) /\
  (exists r a' b',
     remap_right (Float64 [10; 9; 8]) = Ok r /\
     length (values r) = length (values (Float64 [10; 9; 8])) /\
     Py.first (values r) = Ok a' /\ Py.last (values r) = Ok b' /\
     a' == 10 /\ b' - a' == Qabs (8 - 10)).
Proof.
  split.
  - apply (@remap_right_canonical (Int64 [10; 9; 8]%Z) 10 8);
      [|reflexivity|reflexivity].
    intros v Hv. cbn [In] in Hv.
    destruct Hv as [<-|[<-|[<-|[]]]]; split; vm_compute; congruence.
  - apply (@remap_right_canonical (Float64 [10; 9; 8]) 10 8);
      [exact I | reflexivity | reflexivity].
Defined.


Lemma interp1_right (x0 x1 f0 f1 key : Q) :
  x1 < key -> Np.interp1 [x0; x1] [f0; f1] x0 f0 key = f1.
Proof.
  intros H. unfold Np.interp1. change (List.last [x0; x1] x0) with x1.
  assert (E1 : Qltb x1 key = true) by (now apply Qltb_lt).
  now rewrite E1.
Qed.

Lemma interp1_left (x0 x1 f0 f1 key : Q) :
  key <= x1 -> key < x0 -> Np.interp1 [x0; x1] [f0; f1] x0 f0 key = f0.
Proof.
  intros H1 H0. unfold Np.interp1. change (List.last [x0; x1] x0) with x1.
  assert (E1 : Qltb x1 key = false) by (now apply Qltb_ge).
  assert (E2 : Qltb key x0 = true) by (now apply Qltb_lt).
  now rewrite E1, E2.
Qed.

(** What [normalize_space] returns, item by item. *)
Lemma normalize_space_nth (coord : list Q) (start end_ a b c : Q) (i : nat) :
  Py.first coord = Ok a -> Py.last coord = Ok b ->
  nth_error coord i = Some c ->
  exists r,
    normalize_space coord start end_ = Ok r /\ length r = length coord /\
    nth_error r i
    = Some (Np.interp1 [a - (b - a); b + (b - a)]
              [start - (end_ - start); end_ + (end_ - start)]
              (a - (b - a)) (start - (end_ - start)) c).
Proof.
  intros Ha Hb Hc. destruct coord as [|c0 l]; [discriminate Ha|].
  injection Ha as <-. injection Hb as <-.
  eexists. split; [reflexivity|]. split; [apply length_map|].
  rewrite nth_error_map, Hc. reflexivity.
Qed.



(** X3.  For a sequence whose last item is above its first, an item more than
    one span beyond an end point is clamped: above [last + span] it becomes
    [end_ + (end_ - start)], below [first - span] it becomes
    [start - (end_ - start)]. *)
Theorem normalize_space_clamps (coord : list Q) (start end_ a b c : Q) (i : nat)
    (Ha : Py.first coord = Ok a) (Hb : Py.last coord = Ok b) (Hpos : a < b)
    (Hc : nth_error coord i = Some c) :
  exists r,
    normalize_space coord start end_ = Ok r /\
    (b + (b - a) < c -> nth_error r i = Some (end_ + (end_ - start))) /\
    (c < a - (b - a) -> nth_error r i = Some (start - (end_ - start))).
Proof.
  destruct (@normalize_space_nth coord start end_ a b c i Ha Hb Hc)
    as (r & Hr & Hlen & Hn).
  exists r. split; [exact Hr|]. split; intros H; rewrite Hn; f_equal.
  - now apply interp1_right.
  - apply interp1_left; lraQ.
Qed.

Lemma normalize_space_clamps_witness :
  exists r,
    normalize_space [0; 5; 1] 0 1 = Ok r /\
    (1 + (1 - 0) < 5 -> nth_error r 1 = Some (1 + (1 - 0))) /\
    (5 < 0 - (1 - 0) -> nth_error r 1 = Some (0 - (1 - 0))).
Proof.
  apply (@normalize_space_clamps [0; 5; 1] 0 1 0 1 5 1%nat); reflexivity.
Defined.

(** X4.  When the last item equals the first (a one-item sequence, or a path
    that returns to its start) nothing is raised: every item at or above the
    first is sent to [end_ + (end_ - start)] and every item below it to
    [start - (end_ - start)]; the first item is not sent to [start]. *)
Theorem normalize_space_zero_span (coord : list Q) (start end_ a b c : Q) (i : nat)
    (Ha : Py.first coord = Ok a) (Hb : Py.last coord = Ok b) (Hzero : b == a)
    (Hc : nth_error coord i = Some c) :
  exists r,
    normalize_space coord start end_ = Ok r /\
    (a <= c -> nth_error r i = Some (end_ + (end_ - start))) /\
    (c < a -> nth_error r i = Some (start - (end_ - start))).
Proof.
  destruct (@normalize_space_nth coord start end_ a b c i Ha Hb Hc)
    as (r & Hr & Hlen & Hn).
  exists r. split; [exact Hr|]. split; intros H; rewrite Hn; f_equal.
  - destruct (Qlt_le_dec (b + (b - a)) c) as [Hgt|Hle];
      [now apply interp1_right|].
    unfold Np.interp1.
    change (List.last [a - (b - a); b + (b - a)] (a - (b - a)))
      with (b + (b - a)).
    assert (E1 : Qltb (b + (b - a)) c = false) by (now apply Qltb_ge).
    assert (E2 : Qltb c (a - (b - a)) = false) by (apply Qltb_ge; lraQ).
    rewrite E1, E2. cbn [tl Np.scan].
    assert (E3 : Qle_bool (b + (b - a)) c = true) by (apply Qle_bool_iff; lraQ).
    rewrite E3. reflexivity.
  - apply interp1_left; lraQ.
Qed.

Lemma normalize_space_zero_span_witness :
  exists r,
    normalize_space [7] 0 1 = Ok r /\
    (7 <= 7 -> nth_error r 0 = Some (1 + (1 - 0))) /\
    (7 < 7 -> nth_error r 0 = Some (0 - (1 - 0))).
Proof.
  apply (@normalize_space_zero_span [7] 0 1 7 7 7 0%nat); reflexivity.
Defined.




(** ** Time normalisation, continued *)

(** X6.  For a non-empty [t] with [max(t) > min(t)], sequences of equal
    length and [N >= 1], [even_time_steps] returns at least one timestamp,
    as many as [np.arange] generates; the [i]-th one is [min(t) + i*step]
    for the rounded step [(max(t) - min(t))/N], so the timestamps are evenly
    spaced, start at [min(t)] and never fall below it. *)
Theorem even_time_steps_timestamps (fl : Q -> Q) (x y t : list Q) (N : Z)
    (lo hi : Q)
    (Hfl : rounding fl) (Hrange : steps_in_range fl lo hi N)
    (Hx : length x = length t) (Hy : length y = length t)
    (Hspan : time_span t lo hi) (Hlt : lo < hi) (HN : (1 <= N)%Z) :
  exists nx ny nt,
    even_time_steps fl x y t N = Ok (nx, ny, nt) /\
    (1 <= length nt)%nat /\
    Z.of_nat (length nt) = steps_generated fl lo hi N /\
    forall i, (i < length nt)%nat ->
      exists v, nth_error nt i = Some v /\
        v == lo + inject_Z (Z.of_nat i) * fl (fl (hi - lo) / inject_Z N) /\
        lo <= v.
Proof.
  destruct t as [|t0 ts]; [destruct Hspan as [Hmin _]; discriminate Hmin|].
  destruct x as [|x0 xs]; [discriminate|].
  destruct y as [|y0 ys]; [discriminate|].
  assert (Hx' : length xs = length ts) by (simpl in *; lia).
  assert (Hy' : length ys = length ts) by (simpl in *; lia).
  destruct (@even_time_steps_run fl x0 y0 t0 xs ys ts N lo hi
              Hfl Hx' Hy' Hspan Hlt HN) as (Hstep & Hn & Hrun).
  do 3 eexists. split; [exact Hrun|].
  rewrite length_map, length_seq. split; [lia|]. split; [lia|].
  intros i Hi.
  exists (lo + inject_Z (Z.of_nat i) * fl (fl (hi - lo) / inject_Z N)). split.
  - rewrite nth_error_map, nth_error_seq.
    destruct (Nat.ltb_spec i (Z.to_nat (steps_generated fl lo hi N)))
      as [_|Hge]; [reflexivity | lia].
  - split; [reflexivity|].
    assert (Hi0 : 0 <= inject_Z (Z.of_nat i)).
    { change 0 with (inject_Z 0). rewrite <- Zle_Qle. lia. }
    assert (P : 0 <= inject_Z (Z.of_nat i) * fl (fl (hi - lo) / inject_Z N))
      by (apply Qmult_le_0_compat; lraQ).
    lraQ.
Qed.

Lemma even_time_steps_timestamps_witness :
  exists nx ny nt,
    even_time_steps b64 [0; 1; 2; 3] [0; 0; 0; 0] [0; 10; 20; 30] 4
    = Ok (nx, ny, nt) /\
    (1 <= length nt)%nat /\
    Z.of_nat (length nt) = steps_generated b64 0 30 4 /\
    forall i, (i < length nt)%nat ->
      exists v, nth_error nt i = Some v /\
        v == 0 + inject_Z (Z.of_nat i) * b64 (b64 (30 - 0) / inject_Z 4) /\
        0 <= v.
Proof.
  apply (@even_time_steps_timestamps
           b64 [0; 1; 2; 3] [0; 0; 0; 0] [0; 10; 20; 30] 4 0 30).
  - exact b64_rounding.
  - split; [vm_compute; discriminate|].
    split; split; vm_compute; discriminate.
  - reflexivity.
  - reflexivity.
  - split; reflexivity.
  - reflexivity.
  - lia.
Defined.

(** X7.  The ways [even_time_steps] fails: [ValueError] on an empty [t],
    [ZeroDivisionError] for zero steps, and [ValueError] when [x] or [y] does
    not have the length of [t]. *)
Theorem even_time_steps_failures (fl : Q -> Q) (x y t : list Q) (N : Z)
    (lo hi : Q) (Hfl : rounding fl)
    (Hspan : time_span t lo hi) (Hlt : lo < hi) (HN : N <> 0%Z)
    (Hmis : length x <> length t \/ length y <> length t) :
  even_time_steps fl x y [] N = Raise ValueError /\
  even_time_steps fl x y t 0 = Raise ZeroDivisionError /\
  even_time_steps fl x y t N = Raise ValueError.
Proof.
  destruct Hspan as [Hmin Hmax].
  split; [reflexivity|]. split.
  - unfold even_time_steps. rewrite Hmin, Hmax. reflexivity.
  - unfold even_time_steps. rewrite Hmin, Hmax. cbn [bind]. unfold py_div.
    assert (HNq : ~ inject_Z N == 0).
    { change 0 with (inject_Z 0). rewrite inject_Z_injective. exact HN. }
    assert (EN : Qeq_bool (inject_Z N) 0 = false) by (now apply Qeq_bool_false).
    rewrite EN. cbn [bind]. unfold Np.arange.
    assert (Hd : 0 < fl (hi - lo)) by (apply fl_pos; [exact Hfl | lraQ]).
    assert (Hstep : ~ fl (fl (hi - lo) / inject_Z N) == 0).
    { apply (fl_nonzero Hfl). intros E.
      assert (E' : fl (hi - lo) == 0 * inject_Z N).
      { rewrite <- E. field. exact HNq. }
      lraQ. }
    apply Qeq_bool_false in Hstep. rewrite Hstep. cbn [bind].
    destruct t as [|t0 ts]; [discriminate Hmin|].
    unfold Np.interp.
    destruct x as [|x0 xs]; [reflexivity|].
    destruct (Nat.eqb_spec (length (t0 :: ts)) (length (x0 :: xs))) as [Ex|Ex];
      [|reflexivity].
    cbn [bind].
    destruct y as [|y0 ys]; [reflexivity|].
    destruct (Nat.eqb_spec (length (t0 :: ts)) (length (y0 :: ys))) as [Ey|Ey];
      [|reflexivity].
    exfalso. destruct Hmis as [H|H]; apply H; congruence.
Qed.

Lemma even_time_steps_failures_witness :
  even_time_steps b64 [1] [1; 2] [] 2 = Raise ValueError /\
  even_time_steps b64 [1] [1; 2] [0; 10] 0 = Raise ZeroDivisionError /\
  even_time_steps b64 [1] [1; 2] [0; 10] 2 = Raise ValueError.
Proof.
  apply (@even_time_steps_failures b64 [1] [1; 2] [0; 10] 2 0 10).
  - exact b64_rounding.
  - split; reflexivity.
  - reflexivity.
  - lia.
  - left. simpl. lia.
Defined.

(** X8.  A negative number of steps is not an error: the step is negative,
    [np.arange] yields no timestamp, and three empty sequences come back. *)
Theorem even_time_steps_negative_steps (fl : Q -> Q) (x y t : list Q) (N : Z)
    (lo hi : Q) (Hfl : rounding fl)
    (Hx : length x = length t) (Hy : length y = length t)
    (Hspan : time_span t lo hi) (Hlt : lo < hi) (HN : (N < 0)%Z) :
  even_time_steps fl x y t N = Ok ([], [], []).
Proof.
  destruct Hspan as [Hmin Hmax].
  destruct t as [|t0 ts]; [discriminate Hmin|].
  destruct x as [|x0 xs]; [discriminate|].
  destruct y as [|y0 ys]; [discriminate|].
  assert (HNq : inject_Z N < 0).
  { change 0 with (inject_Z 0). rewrite <- Zlt_Qlt. exact HN. }
  unfold even_time_steps. rewrite Hmin, Hmax. cbn [bind]. unfold py_div.
  assert (EN : Qeq_bool (inject_Z N) 0 = false) by (apply Qeq_bool_false; lraQ).
  rewrite EN. cbn [bind]. unfold Np.arange.
  assert (Hd : 0 < fl (hi - lo)) by (apply fl_pos; [exact Hfl | lraQ]).
  assert (Hquot : fl (hi - lo) / inject_Z N < 0).
  { setoid_replace (fl (hi - lo) / inject_Z N)
      with (- (fl (hi - lo) / - inject_Z N)) by (field; lraQ).
    assert (0 < fl (hi - lo) / - inject_Z N)
      by (apply Qlt_shift_div_l; lraQ).
    lraQ. }
  assert (Hstep : fl (fl (hi - lo) / inject_Z N) < 0).
  { assert (H1 : fl (fl (hi - lo) / inject_Z N) <= 0)
      by (apply fl_nonpos; [exact Hfl | lraQ]).
    assert (H2 : ~ fl (fl (hi - lo) / inject_Z N) == 0)
      by (apply (fl_nonzero Hfl); lraQ).
    lraQ. }
  set (step := fl (fl (hi - lo) / inject_Z N)) in *.
  assert (ES : Qeq_bool step 0 = false) by (apply Qeq_bool_false; lraQ).
  rewrite ES.
  assert (Hn : Z.to_nat (Qceiling (fl (fl (hi - lo) / step))) = 0%nat).
  { assert (Hq : fl (fl (hi - lo) / step) <= inject_Z 0).
    { change (inject_Z 0) with 0. apply fl_nonpos; [exact Hfl|].
      setoid_replace (fl (hi - lo) / step)
        with (- (fl (hi - lo) / - step)) by (field; lraQ).
      assert (0 < fl (hi - lo) / - step) by (apply Qlt_shift_div_l; lraQ).
      lraQ. }
    apply Qceiling_resp_le in Hq. rewrite Qceiling_Z in Hq. lia. }
  rewrite Hn. cbn [seq map bind].
  unfold Np.interp. rewrite Hx, Hy, Nat.eqb_refl. reflexivity.
Qed.

Lemma even_time_steps_negative_steps_witness :
  even_time_steps b64 [0; 1] [0; 0] [0; 10] (-3) = Ok ([], [], []).
Proof.
  apply (@even_time_steps_negative_steps b64 [0; 1] [0; 0] [0; 10] (-3) 0 10);
    try reflexivity.
  - exact b64_rounding.
  - split; reflexivity.
Defined.

Lemma scan_bound (key : Q) (rest : list Q) (j : nat) :
  (j <= Np.scan key rest j <= j + length rest)%nat.
Proof.
  revert j. induction rest as [|a rest IH]; intros j; cbn [Np.scan length].
  - lia.
  - destruct (Qle_bool a key); [specialize (IH (S j))|]; lia.
Qed.

Lemma scan_all (key : Q) (rest : list Q) (j : nat) :
  (forall a, In a rest -> a <= key) ->
  Np.scan key rest j = (j + length rest)%nat.
Proof.
  revert j. induction rest as [|a rest IH]; intros j H; cbn [Np.scan length].
  - lia.
  - assert (E : Qle_bool a key = true) by (apply Qle_bool_iff, H; now left).
    rewrite E, IH; [lia|]. intros b Hb. apply H. now right.
Qed.

(** Interpolating samples that all equal [c] gives [c] at every key. *)
Lemma interp1_constant (x0 f0 c key : Q) (xs fs : list Q) :
  length xs = length fs ->
  (forall v, In v (f0 :: fs) -> v == c) ->
  Np.interp1 (x0 :: xs) (f0 :: fs) x0 f0 key == c.
Proof.
  intros Hlen Hall. unfold Np.interp1.
  destruct (Qltb (List.last (x0 :: xs) x0) key).
  { apply Hall. rewrite last_cons. apply last_in. }
  destruct (Qltb key x0); [apply Hall; now left|].
  cbn [tl length]. rewrite Nat.sub_succ, Nat.sub_0_r.
  pose proof (scan_bound key xs 0) as Hj. cbn [Nat.add] in Hj.
  set (j := Np.scan key xs 0) in *.
  assert (Hfj : nth j (f0 :: fs) 0 == c).
  { apply Hall. apply nth_In. cbn [length]. lia. }
  destruct (Nat.eqb_spec j (length xs)) as [Ej|Ej]; [exact Hfj|].
  destruct (Qeq_bool (nth j (x0 :: xs) 0) key); [exact Hfj|].
  assert (Hfs : nth (S j) (f0 :: fs) 0 == c).
  { apply Hall. apply nth_In. cbn [length]. lia. }
  rewrite Hfs, Hfj. unfold Qdiv. ring.
Qed.

(** X9.  A coordinate that does not move stays where it is: if every [x]
    equals [c] then every resampled [x] equals [c], and likewise for [y];
    the three returned sequences have one common length, at least 1. *)
Theorem even_time_steps_constant (fl : Q -> Q) (x y t : list Q) (N : Z)
    (lo hi c d : Q)
    (Hfl : rounding fl) (Hrange : steps_in_range fl lo hi N)
    (Hx : length x = length t) (Hy : length y = length t)
    (Hspan : time_span t lo hi) (Hlt : lo < hi) (HN : (1 <= N)%Z)
    (Hc : forall v, In v x -> v == c) (Hd : forall v, In v y -> v == d) :
  exists nx ny nt,
    even_time_steps fl x y t N = Ok (nx, ny, nt) /\
    (1 <= length nt)%nat /\
    length nx = length nt /\ length ny = length nt /\
    (forall v, In v nx -> v == c) /\ (forall v, In v ny -> v == d).
Proof.
  destruct t as [|t0 ts]; [destruct Hspan as [Hmin _]; discriminate Hmin|].
  destruct x as [|x0 xs]; [discriminate|].
  destruct y as [|y0 ys]; [discriminate|].
  assert (Hx' : length xs = length ts) by (simpl in *; lia).
  assert (Hy' : length ys = length ts) by (simpl in *; lia).
  destruct (@even_time_steps_run fl x0 y0 t0 xs ys ts N lo hi
              Hfl Hx' Hy' Hspan Hlt HN) as (Hstep & Hn & Hrun).
  do 3 eexists. split; [exact Hrun|].
  rewrite !length_map, length_seq. split; [lia|].
  split; [reflexivity|]. split; [reflexivity|].
  split; intros v Hv; apply in_map_iff in Hv; destruct Hv as (k & <- & _);
    apply interp1_constant; auto.
Qed.

Lemma even_time_steps_constant_witness :
  exists nx ny nt,
    even_time_steps b64 [5; 5; 5] [0; 0; 0] [0; 10; 30] 4 = Ok (nx, ny, nt) /\
    (1 <= length nt)%nat /\
    length nx = length nt /\ length ny = length nt /\
    (forall v, In v nx -> v == 5) /\ (forall v, In v ny -> v == 0).
Proof.
  apply (@even_time_steps_constant
           b64 [5; 5; 5] [0; 0; 0] [0; 10; 30] 4 0 30 5 0);
    try reflexivity.
  - exact b64_rounding.
  - split; [vm_compute; discriminate|].
    split; split; vm_compute; discriminate.
  - split; reflexivity.
  - lia.
  - intros v Hv. cbn [In] in Hv. destruct Hv as [<-|[<-|[<-|[]]]]; reflexivity.
  - intros v Hv. cbn [In] in Hv. destruct Hv as [<-|[<-|[<-|[]]]]; reflexivity.
Defined.

(** ** Uniform-time padding, continued *)

(** The required length is computed on the rounded quotient: for
    [max_duration = 4.3] and [interval = 0.1] the quotient of the two
    doubles is the double just below 43, and 42 items are required. *)
Lemma required_length_rounds_down :
  required_length b64 (b64 (43 # 10)) (b64 (1 # 10)) = 42%Z /\
  py_int ((43 # 10) / (1 # 10)) = 43%Z.
Proof. split; vm_compute; reflexivity. Qed.

(** X10.  On well-formed input with a positive interval the result has
    [max(n, r)] items, where [n] is the number of timestamps that
    [np.arange] generates (the ceiling of the rounded quotient
    [(t[-1]+1)/interval]) and [r] the required length (the truncation of the
    rounded quotient [max_duration/interval]): the required length is a
    lower bound, not the length. *)
Theorem uniform_time_length (fl : Q -> Q) (coordinates timepoints : list Q)
    (interval max_duration t_last : Q)
    (Hfl : rounding fl)
    (Hrange : padding_in_range fl t_last interval max_duration)
    (Hlen : length coordinates = length timepoints)
    (Hlast : Py.last timepoints = Ok t_last)
    (Hint : 0 < interval) (Hpos : 0 < t_last + 1) :
  exists r,
    uniform_time fl coordinates timepoints interval max_duration = Ok r /\
    Z.of_nat (length r)
    = Z.max (timestamps_generated fl t_last interval)
            (required_length fl max_duration interval).
Proof.
  destruct (@uniform_time_shape fl coordinates timepoints interval max_duration
              t_last Hfl Hlen Hlast Hint Hpos)
    as (regular & c_last & Hn & Hge & Hc & Hu).
  eexists. split; [exact Hu|].
  rewrite length_app, repeat_length. lia.
Qed.

Lemma uniform_time_length_witness :
  exists r,
    uniform_time b64 [0; 1] [0; 10] 10 50 = Ok r /\
    Z.of_nat (length r)
    = Z.max (timestamps_generated b64 10 10) (required_length b64 50 10).
Proof.
  apply (@uniform_time_length b64 [0; 1] [0; 10] 10 50 10);
    try reflexivity.
  - exact b64_rounding.
  - split; [split; vm_compute; discriminate|].
    split; [split; vm_compute; discriminate|].
    right. split; vm_compute; discriminate.
Defined.



Lemma py_last_seq (m : nat) : Py.last (seq 0 (S m)) = Ok m.
Proof.
  destruct (@last_length nat (seq 0 (S m))) as (a & Ha & Hn); [discriminate|].
  rewrite Ha. f_equal. rewrite length_seq, nth_error_seq in Hn.
  destruct (Nat.ltb_spec (S m - 1) (S m)) as [_|Hge]; [|lia].
  injection Hn as <-. lia.
Qed.

(** The resampled part of [uniform_time], with its first and last items. *)
Lemma uniform_time_regular (fl : Q -> Q) (c0 t0 : Q) (cs ts : list Q)
    (interval max_duration t_last : Q) :
  rounding fl ->
  length cs = length ts ->
  Py.last (t0 :: ts) = Ok t_last ->
  0 < interval -> 0 < t_last + 1 ->
  let n := Z.to_nat (timestamps_generated fl t_last interval) in
  let f := fun i : nat =>
    Np.interp1 (t0 :: ts) (c0 :: cs) t0 c0
      (0 + inject_Z (Z.of_nat i) * interval) in
  exists rest,
    (1 <= n)%nat /\
    length (f 0%nat :: rest) = n /\
    uniform_time fl (c0 :: cs) (t0 :: ts) interval max_duration
    = Ok ((f 0%nat :: rest)
          ++ repeat (f (n - 1)%nat)
               (Z.to_nat (required_length fl max_duration interval
                          - Z.of_nat (length (f 0%nat :: rest))))) /\
    Py.last (f 0%nat :: rest) = Ok (f (n - 1)%nat).
Proof.
  intros Hfl Hlen Hlast Hint Hpos n f.
  assert (Hq : Qceiling (fl (fl (fl (t_last + 1) - 0) / interval))
               = timestamps_generated fl t_last interval).
  { apply Qceiling_comp, (fl_proper Hfl).
    assert (E : fl (fl (t_last + 1) - 0) == fl (t_last + 1)).
    { rewrite <- (fl_idem Hfl (t_last + 1)) at 2.
      apply (fl_proper Hfl). ring. }
    rewrite E. reflexivity. }
  assert (Hnum : 0 < fl (t_last + 1)) by (apply fl_pos; assumption).
  assert (Hdiv : 0 < fl (fl (t_last + 1) / interval)).
  { apply fl_pos; [exact Hfl|]. apply Qlt_shift_div_l; [exact Hint | lraQ]. }
  pose proof (Qle_ceiling (fl (fl (t_last + 1) / interval))) as Hc.
  assert (Hceil : (1 <= timestamps_generated fl t_last interval)%Z).
  { assert (Hz : inject_Z 0
                 < inject_Z (timestamps_generated fl t_last interval)).
    { change (inject_Z 0) with 0. unfold timestamps_generated. lraQ. }
    rewrite <- Zlt_Qlt in Hz. lia. }
  assert (Hn : (1 <= n)%nat) by (unfold n; lia).
  unfold uniform_time. rewrite Hlast. cbn [bind]. unfold Np.arange.
  assert (E0 : Qeq_bool interval 0 = false) by (apply Qeq_bool_false; lraQ).
  rewrite E0, Hq. fold n. cbn [bind]. unfold Np.interp.
  assert (El : Nat.eqb (length (t0 :: ts)) (length (c0 :: cs)) = true)
    by (apply Nat.eqb_eq; simpl; lia).
  rewrite El. cbn [bind]. rewrite map_map. fold f.
  unfold py_div. rewrite E0. cbn [bind].
  destruct n as [|m] eqn:En; [lia|].
  rewrite (py_last_map f _ (py_last_seq m)). cbn [bind].
  cbn [seq map]. rewrite Nat.sub_succ, Nat.sub_0_r.
  eexists. split; [lia|]. split; [|split; [reflexivity|]].
  - cbn [length]. now rewrite length_map, length_seq.
  - exact (py_last_map f _ (py_last_seq m)).
Qed.

Lemma nth_last (T : Type) (l : list T) (a d : T) :
  nth (length l) (a :: l) d = List.last l a.
Proof. apply nth_error_nth, nth_error_last. Qed.

(** At or beyond the last sample time of non-decreasing samples [interp1]
    returns the last sample value. *)
Lemma interp1_beyond_last (x0 f0 key : Q) (xs fs : list Q) :
  length xs = length fs -> nondecreasing (x0 :: xs) ->
  List.last xs x0 <= key ->
  Np.interp1 (x0 :: xs) (f0 :: fs) x0 f0 key = List.last fs f0.
Proof.
  intros Hlen Hmono Hkey. unfold Np.interp1. rewrite !last_cons.
  destruct (Qltb (List.last xs x0) key) eqn:E1; [reflexivity|].
  assert (H0 : x0 <= List.last xs x0).
  { apply (Hmono 0%nat (length xs) x0); [lia | reflexivity | apply nth_error_last]. }
  assert (E2 : Qltb key x0 = false) by (apply Qltb_ge; lraQ).
  rewrite E2. cbn [tl length]. rewrite Nat.sub_succ, Nat.sub_0_r.
  rewrite scan_all.
  - cbn [Nat.add]. rewrite Nat.eqb_refl, Hlen. apply nth_last.
  - intros a Ha. apply In_nth_error in Ha. destruct Ha as [i Hi].
    assert (Hil : (i < length xs)%nat) by (apply nth_error_Some; congruence).
    assert (a <= List.last xs x0).
    { apply (Hmono (S i) (length xs) a); [lia | exact Hi | apply nth_error_last]. }
    lraQ.
Qed.

(** X12.  When the timestamps never decrease, the last one is [k] intervals
    and more than [k] timestamps are generated (as they are unless rounding
    loses the [+ 1]), the result is the resampled sequence, one item per
    generated timestamp and ending with the last coordinate, followed by as
    many copies of that coordinate as the required length exceeds it. *)
Theorem uniform_time_holds_last (fl : Q -> Q) (coordinates timepoints : list Q)
    (interval max_duration t_last c_end : Q) (k : Z)
    (Hfl : rounding fl)
    (Hrange : padding_in_range fl t_last interval max_duration)
    (Hlen : length coordinates = length timepoints)
    (Hlast : Py.last timepoints = Ok t_last)
    (Hend : Py.last coordinates = Ok c_end)
    (Hmono : nondecreasing timepoints)
    (Hint : 0 < interval) (Hk : (0 <= k)%Z)
    (Hmult : t_last == inject_Z k * interval)
    (Hmore : (k < timestamps_generated fl t_last interval)%Z) :
  exists regular,
    Z.of_nat (length regular) = timestamps_generated fl t_last interval /\
    Py.last regular = Ok c_end /\
    uniform_time fl coordinates timepoints interval max_duration
    = Ok (regular
          ++ repeat c_end
               (Z.to_nat (required_length fl max_duration interval
                          - Z.of_nat (length regular)))).
Proof.
  destruct timepoints as [|t0 ts]; [discriminate Hlast|].
  destruct coordinates as [|c0 cs]; [discriminate Hlen|].
  assert (Hlen' : length cs = length ts) by (simpl in Hlen; lia).
  assert (Hk0 : 0 <= inject_Z k).
  { change 0 with (inject_Z 0). rewrite <- Zle_Qle. exact Hk. }
  assert (Hpos : 0 < t_last + 1).
  { assert (0 <= inject_Z k * interval) by (apply Qmult_le_0_compat; lraQ).
    lraQ. }
  destruct (@uniform_time_regular fl c0 t0 cs ts interval max_duration t_last
              Hfl Hlen' Hlast Hint Hpos)
    as (rest & Hn & Hlr & Hu & Hl).
  set (n := Z.to_nat (timestamps_generated fl t_last interval)) in *.
  assert (Hnk : (k <= Z.of_nat (n - 1))%Z) by (unfold n; lia).
  assert (Hkey : List.last ts t0
                 <= 0 + inject_Z (Z.of_nat (n - 1)) * interval).
  { injection Hlast as Hlast. rewrite Hlast, Hmult.
    rewrite Zle_Qle in Hnk.
    assert (inject_Z k * interval <= inject_Z (Z.of_nat (n - 1)) * interval)
      by (apply Qmult_le_compat_r; [exact Hnk | lraQ]).
    lraQ. }
  rewrite (@interp1_beyond_last t0 c0 _ ts cs (eq_sym Hlen') Hmono Hkey)
    in Hu, Hl.
  injection Hend as <-.
  eexists. split; [|split; [exact Hl | exact Hu]].
  rewrite Hlr. unfold n. lia.
Qed.

Lemma uniform_time_holds_last_witness :
  exists regular,
    Z.of_nat (length regular) = timestamps_generated b64 20 10 /\
    Py.last regular = Ok 1 /\
    uniform_time b64 [0; 1] [0; 20] 10 50
    = Ok (regular
          ++ repeat 1
               (Z.to_nat (required_length b64 50 10
                          - Z.of_nat (length regular)))).
Proof.
  apply (@uniform_time_holds_last b64 [0; 1] [0; 20] 10 50 20 1 2);
    try reflexivity; try lia.
  - exact b64_rounding.
  - split; [split; vm_compute; discriminate|].
    split; [split; vm_compute; discriminate|].
    right. split; vm_compute; discriminate.
  - intros i j a b Hij Hi Hj.
    destruct i as [|[|i]]; destruct j as [|[|j]]; cbn in Hi, Hj;
      try lia; try (destruct i; discriminate); try (destruct j; discriminate);
      injection Hi as <-; injection Hj as <-; intros H; discriminate H.
Defined.

(** X13.  When the timestamps never decrease, the first one is not negative
    and the second one is strictly later, the first item of the result is the
    first coordinate. *)
Theorem uniform_time_starts_at_first (fl : Q -> Q)
    (coordinates timepoints : list Q)
    (interval max_duration t_last t0 t1 c0 : Q) (Hfl : rounding fl)
    (Hlen : length coordinates = length timepoints)
    (Hlast : Py.last timepoints = Ok t_last)
    (H0 : nth_error timepoints 0 = Some t0)
    (H1 : nth_error timepoints 1 = Some t1)
    (Hc0 : Py.first coordinates = Ok c0)
    (Hmono : nondecreasing timepoints)
    (Hint : 0 < interval) (Hnonneg : 0 <= t0) (Hstrict : t0 < t1) :
  exists r,
    uniform_time fl coordinates timepoints interval max_duration = Ok r /\
    Py.first r = Ok c0.
Proof.
  destruct timepoints as [|t0' [|t1' ts]]; try discriminate.
  injection H0 as ->. injection H1 as ->.
  destruct coordinates as [|c0' cs]; [discriminate Hlen|].
  injection Hc0 as ->.
  assert (Hlen' : length cs = length (t1 :: ts)) by (simpl in *; lia).
  assert (Hl0 : t0 <= List.last (t1 :: ts) t0).
  { apply (Hmono 0%nat (length (t1 :: ts)) t0);
      [lia | reflexivity | apply nth_error_last]. }
  assert (Hpos : 0 < t_last + 1).
  { assert (Ht : t_last = List.last (t1 :: ts) t0)
      by (unfold Py.last in Hlast; congruence).
    rewrite Ht. lraQ. }
  destruct (@uniform_time_regular fl c0 t0 cs (t1 :: ts) interval max_duration
              t_last Hfl Hlen' Hlast Hint Hpos)
    as (rest & Hn & _ & Hu & _).
  eexists. split; [exact Hu|].
  cbn [app Py.first Py.index nth_error]. f_equal.
  assert (Hkey : 0 + inject_Z (Z.of_nat 0) * interval == 0)
    by (change (inject_Z (Z.of_nat 0)) with 0; ring).
  destruct (Qlt_le_dec 0 t0) as [Hgt|Hle].
  - unfold Np.interp1.
    assert (E1 : Qltb (List.last (t0 :: t1 :: ts) t0)
                   (0 + inject_Z (Z.of_nat 0) * interval) = false).
    { apply Qltb_ge. rewrite Hkey, last_cons. lraQ. }
    assert (E2 : Qltb (0 + inject_Z (Z.of_nat 0) * interval) t0 = true)
      by (apply Qltb_lt; rewrite Hkey; exact Hgt).
    now rewrite E1, E2.
  - apply interp1_at_first; [rewrite Hkey; lraQ | exact Hstrict | exact Hl0].
Qed.

Lemma uniform_time_starts_at_first_witness :
  exists r,
    uniform_time b64 [3; 1] [0; 20] 10 50 = Ok r /\ Py.first r = Ok 3.
Proof.
  apply (@uniform_time_starts_at_first b64 [3; 1] [0; 20] 10 50 20 0 20 3);
    try reflexivity; try (intros H; discriminate H).
  - exact b64_rounding.
  - intros i j a b Hij Hi Hj.
    destruct i as [|[|i]]; destruct j as [|[|j]]; cbn in Hi, Hj;
      try lia; try (destruct i; discriminate); try (destruct j; discriminate);
      injection Hi as <-; injection Hj as <-; intros H; discriminate H.
Defined.

(** ** Event locator, continued *)

Lemma first_true_before (l : list bool) (k : nat) :
  nth_error l k = Some true ->
  exists k', Np.first_true l = Some k' /\ (k' <= k)%nat.
Proof.
  revert k. induction l as [|b l IH]; intros k Hk.
  - destruct k; discriminate Hk.
  - cbn [Np.first_true]. destruct b.
    + exists 0%nat. split; [reflexivity | lia].
    + destruct k as [|k]; [discriminate Hk|]. cbn [nth_error] in Hk.
      destruct (IH k Hk) as (k' & -> & Hle). exists (S k'). split; [reflexivity | lia].
Qed.

(** X14.  Relaxing the threshold never delays the onset: if the sample at the
    index returned for [th2] really is beyond [th2], then for any threshold
    [th1] that is easier to cross (lower when ascending, higher otherwise)
    the returned index is not later. *)
Theorem get_init_step_threshold_monotone (y : list Q) (th1 th2 v : Q)
    (asc : bool) (k2 : nat)
    (Heasier : if asc then th1 <= th2 else th2 <= th1)
    (Hk2 : get_init_step y th2 asc = Ok k2)
    (Hv : nth_error y k2 = Some v) (Hcross : crosses th2 asc v) :
  exists k1, get_init_step y th1 asc = Ok k1 /\ (k1 <= k2)%nat.
Proof.
  assert (Hc1 : crosses th1 asc v).
  { unfold crosses in *. destruct asc; lraQ. }
  assert (Ht : nth_error (started y th1 asc) k2 = Some true).
  { unfold started, Qgtb. destruct asc; rewrite nth_error_map, Hv; cbn [option_map];
      f_equal; apply Qltb_lt; exact Hc1. }
  destruct (first_true_before _ _ Ht) as (k1 & Hk1 & Hle).
  exists k1. split; [|exact Hle].
  change (get_init_step y th1 asc) with (Np.argmax (started y th1 asc)).
  unfold Np.argmax. rewrite Hk1.
  destruct (started y th1 asc); [destruct k2; discriminate Ht | reflexivity].
Qed.

Lemma get_init_step_threshold_monotone_witness :
  exists k1,
    get_init_step [0; 0; 2 # 100; 1 # 2] (1 # 100) true = Ok k1 /\ (k1 <= 3)%nat.
Proof.
  apply (@get_init_step_threshold_monotone
           [0; 0; 2 # 100; 1 # 2] (1 # 100) (1 # 10) (1 # 2) true 3);
    reflexivity || (intros H; discriminate H).
Defined.

(** ** Signed areas, continued *)

Lemma py_index_nth (l : list Q) (i : nat) :
  (i < length l)%nat -> Py.index l i = Ok (nth i l 0).
Proof.
  intros Hi. unfold Py.index.
  destruct (nth_error l i) as [a|] eqn:E.
  - f_equal. symmetry. now apply nth_error_nth.
  - apply nth_error_None in E. lia.
Qed.

Lemma area_loop_pure (x y : list Q) (idx : list nat) (j : nat) :
  (forall i, In i idx -> (i < length x)%nat /\ (i < length y)%nat) ->
  (j < length x)%nat -> (j < length y)%nat ->
  area_loop x y idx j = Ok (cross_at x y idx j).
Proof.
  revert j. induction idx as [|i idx IH]; intros j Hidx Hjx Hjy; [reflexivity|].
  destruct (Hidx i (or_introl eq_refl)) as [Hix Hiy].
  cbn [area_loop cross_at].
  rewrite (py_index_nth y Hiy), (py_index_nth x Hjx),
          (py_index_nth x Hix), (py_index_nth y Hjy).
  cbn [bind]. rewrite IH; [reflexivity | | exact Hix | exact Hiy].
  intros i' Hi'. apply Hidx. now right.
Qed.

Lemma auc_pure (x y : list Q) :
  length x = length y ->
  auc x y = Ok (py_sum (cross_at x y (seq 0 (length x)) (length x - 1)) / 2).
Proof.
  intros Hlen. unfold auc. destruct x as [|x0 xs].
  - reflexivity.
  - rewrite area_loop_pure; [reflexivity | | simpl; lia | simpl in *; lia].
    intros i Hi. apply in_seq in Hi. simpl in *. lia.
Qed.

Lemma cross_at_swap (x y : list Q) (idx : list nat) (j : nat) :
  py_sum (cross_at y x idx j) == - py_sum (cross_at x y idx j).
Proof.
  revert j. induction idx as [|i idx IH]; intros j; cbn [cross_at].
  - reflexivity.
  - rewrite !py_sum_cons, IH. ring.
Qed.

(** X15.  Exchanging the two coordinates reverses the sign of [auc]. *)
Theorem auc_swap (x y : list Q) (Hlen : length x = length y) :
  exists r r', auc x y = Ok r /\ auc y x = Ok r' /\ r' == - r.
Proof.
  rewrite (@auc_pure x y Hlen), (@auc_pure y x (eq_sym Hlen)), <- Hlen.
  do 2 eexists. split; [reflexivity|]. split; [reflexivity|].
  rewrite cross_at_swap. field.
Qed.

Lemma auc_swap_witness :
  exists r r',
    auc [0; 1; 1] [0; 0; 1] = Ok r /\ auc [0; 0; 1] [0; 1; 1] = Ok r' /\
    r' == - r.
Proof.
  apply (@auc_swap [0; 1; 1] [0; 0; 1]). reflexivity.
Defined.

(** X16.  A path of at most two points encloses nothing: [auc] returns 0. *)
Theorem auc_short_path (x y : list Q)
    (Hlen : length x = length y) (Hshort : (length x <= 2)%nat) :
  exists r, auc x y = Ok r /\ r == 0.
Proof.
  rewrite (@auc_pure x y Hlen). eexists. split; [reflexivity|].
  destruct x as [|x0 [|x1 [|x2 xs]]]; destruct y as [|y0 [|y1 [|y2 ys]]];
    try discriminate; try (simpl in Hshort; lia);
    unfold py_sum; cbn [length seq Nat.sub cross_at nth fold_left]; field.
Qed.

Lemma auc_short_path_witness :
  exists r, auc [3; 5] [1; 7] = Ok r /\ r == 0.
Proof.
  apply (@auc_short_path [3; 5] [1; 7]); [reflexivity | simpl; lia].
Defined.

(** X17.  When [y] is shorter than [x], both area functions raise
    [IndexError]. *)
Theorem area_short_y (x y : list Q) (Hlen : (length y < length x)%nat) :
  auc x y = Raise IndexError /\ auc2 x y = Raise IndexError.
Proof.
  destruct x as [|x0 xs]; [simpl in Hlen; lia|]. split.
  - unfold auc. cbn [length seq area_loop].
    rewrite Nat.sub_succ, Nat.sub_0_r.
    destruct y as [|y0 ys]; [reflexivity|].
    cbn [Py.index nth_error bind].
    rewrite (py_index_nth (x0 :: xs)) by (simpl; lia). cbn [bind].
    unfold Py.index at 1.
    assert (E : nth_error (y0 :: ys) (length xs) = None)
      by (apply nth_error_None; simpl in *; lia).
    now rewrite E.
  - unfold auc2. cbn [Py.last bind].
    destruct y as [|y0 ys]; [reflexivity|].
    cbn [Py.first Py.index nth_error bind].
    rewrite length_app. cbn [length]. rewrite Nat.add_1_r.
    cbn [seq area_loop]. rewrite Nat.sub_succ, Nat.sub_0_r.
    cbn [app Py.index nth_error bind].
    rewrite (py_index_nth (x0 :: xs ++ [List.last xs x0]))
      by (simpl; rewrite length_app; simpl; lia).
    cbn [bind]. unfold Py.index at 1.
    assert (E : nth_error (y0 :: ys ++ [y0]) (S (length xs)) = None).
    { apply nth_error_None. simpl in *. rewrite length_app. simpl. lia. }
    now rewrite E.
Qed.

Lemma area_short_y_witness :
  auc [0; 1; 2] [0; 1] = Raise IndexError /\
  auc2 [0; 1; 2] [0; 1] = Raise IndexError.
Proof.
  apply (@area_short_y [0; 1; 2] [0; 1]). simpl. lia.
Defined.

Lemma area_loop_longer_y (x y extra : list Q) (idx : list nat) (j : nat) :
  (forall i, In i idx -> (i < length y)%nat) -> (j < length y)%nat ->
  area_loop x (y ++ extra) idx j = area_loop x y idx j.
Proof.
  revert j. induction idx as [|i idx IH]; intros j Hidx Hj; [reflexivity|].
  assert (Hi : (i < length y)%nat) by (apply Hidx; now left).
  cbn [area_loop]. unfold Py.index at 1 4 5 8.
  rewrite !nth_error_app1 by assumption.
  rewrite IH; [reflexivity | | exact Hi].
  intros i' Hi'. apply Hidx. now right.
Qed.

(** X18.  [auc] reads only the first [len(x)] items of [y]: items of [y]
    beyond the length of [x] do not change the result. *)
Theorem auc_ignores_longer_y (x y extra : list Q) (Hlen : length x = length y) :
  auc x (y ++ extra) = auc x y.
Proof.
  unfold auc. destruct x as [|x0 xs]; [reflexivity|].
  rewrite area_loop_longer_y; [reflexivity | | simpl in *; lia].
  intros i Hi. apply in_seq in Hi. simpl in *. lia.
Qed.

Lemma auc_ignores_longer_y_witness :
  auc [0; 1; 1] ([0; 0; 1] ++ [9; 9]) = auc [0; 1; 1] [0; 0; 1].
Proof.
  apply (@auc_ignores_longer_y [0; 1; 1] [0; 0; 1] [9; 9]). reflexivity.
Defined.

Lemma nth_shift (c : Q) (x : list Q) (i : nat) :
  (i < length x)%nat -> nth i (shift c x) 0 = nth i x 0 + c.
Proof.
  intros Hi. unfold shift.
  rewrite (nth_indep _ 0 (0 + c)) by (now rewrite length_map).
  apply (map_nth (fun v => v + c)).
Qed.

(** Moving the whole path changes the summands of the loop by differences
    that telescope along the chain of previous indices. *)
Lemma cross_at_shift (c d : Q) (x y : list Q) (idx : list nat) (j : nat) :
  length x = length y ->
  (forall i, In i idx -> (i < length x)%nat) -> (j < length x)%nat ->
  py_sum (cross_at (shift c x) (shift d y) idx j)
  == py_sum (cross_at x y idx j)
     + d * (nth (List.last idx j) x 0 - nth j x 0)
     + c * (nth j y 0 - nth (List.last idx j) y 0).
Proof.
  intros Hlen. revert j. induction idx as [|i idx IH]; intros j Hidx Hj.
  - cbn [cross_at List.last]. unfold py_sum. cbn [fold_left]. ring.
  - assert (Hi : (i < length x)%nat) by (apply Hidx; now left).
    cbn [cross_at]. rewrite !py_sum_cons, last_cons.
    rewrite IH; [| intros i' Hi'; apply Hidx; now right | exact Hi].
    rewrite !nth_shift by lia. ring.
Qed.

Lemma last_seq_default (n : nat) : List.last (seq 0 n) (n - 1)%nat = (n - 1)%nat.
Proof.
  destruct n as [|m]; [reflexivity|].
  pose proof (py_last_seq m) as H. unfold Py.last in H. cbn [seq] in H |- *.
  rewrite last_cons. injection H as H. rewrite H. lia.
Qed.

(** X19.  [auc] does not depend on where the path lies: adding a constant to
    every [x] and another to every [y] leaves it unchanged. *)
Theorem auc_translation_invariant (c d : Q) (x y : list Q)
    (Hlen : length x = length y) :
  exists r r',
    auc x y = Ok r /\ auc (shift c x) (shift d y) = Ok r' /\ r' == r.
Proof.
  assert (Hlen' : length (shift c x) = length (shift d y))
    by (unfold shift; now rewrite !length_map).
  rewrite (@auc_pure x y Hlen), (@auc_pure _ _ Hlen').
  do 2 eexists. split; [reflexivity|]. split; [reflexivity|].
  assert (Hs : length (shift c x) = length x) by apply length_map.
  rewrite Hs.
  destruct x as [|x0 xs].
  - reflexivity.
  - rewrite cross_at_shift;
      [ | exact Hlen | intros i Hi; apply in_seq in Hi; simpl in *; lia
        | simpl; lia ].
    rewrite last_seq_default. field.
Qed.

Lemma auc_translation_invariant_witness :
  exists r r',
    auc [0; 1; 1] [0; 0; 1] = Ok r /\
    auc (shift 5 [0; 1; 1]) (shift (-2) [0; 0; 1]) = Ok r' /\ r' == r.
Proof.
  apply (@auc_translation_invariant 5 (-2) [0; 1; 1] [0; 0; 1]). reflexivity.
Defined.

Lemma py_sum_app (l1 l2 : list Q) : py_sum (l1 ++ l2) == py_sum l1 + py_sum l2.
Proof.
  induction l1 as [|q l1 IH]; cbn [app].
  - unfold py_sum at 2. cbn [fold_left]. ring.
  - rewrite !py_sum_cons, IH. ring.
Qed.

Lemma cross_at_app (x y : list Q) (l1 l2 : list nat) (j : nat) :
  cross_at x y (l1 ++ l2) j
  = cross_at x y l1 j ++ cross_at x y l2 (List.last l1 j).
Proof.
  revert j. induction l1 as [|i l1 IH]; intros j; [reflexivity|].
  cbn [app cross_at]. now rewrite IH, last_cons.
Qed.

Lemma nth_line_app (a b : Q) (n i : nat) (e : list Q) :
  (i < n)%nat -> nth i (line a b n ++ e) 0 = affine a b i.
Proof.
  intros Hi. rewrite app_nth1 by (now rewrite line_length).
  pose proof (line_index a b Hi) as H.
  rewrite py_index_nth in H by (now rewrite line_length). congruence.
Qed.

Lemma cross_at_line (a b c d : Q) (n : nat) (ex ey : list Q)
    (idx : list nat) (j : nat) :
  (forall i, In i idx -> (i < n)%nat) -> (j < n)%nat ->
  cross_at (line a b n ++ ex) (line c d n ++ ey) idx j
  = cross_terms a b c d idx j.
Proof.
  revert j. induction idx as [|i idx IH]; intros j Hidx Hj; [reflexivity|].
  assert (Hi : (i < n)%nat) by (apply Hidx; now left).
  cbn [cross_at cross_terms]. rewrite !nth_line_app by assumption.
  rewrite IH; [reflexivity | | exact Hi].
  intros i' Hi'. apply Hidx. now right.
Qed.

Lemma py_last_snoc (T : Type) (l : list T) (e : T) : Py.last (l ++ [e]) = Ok e.
Proof.
  destruct l as [|a l]; [reflexivity|]. cbn [app Py.last]. f_equal.
  revert a. induction l as [|b l IH]; intros a; [reflexivity|].
  cbn [app]. rewrite last_cons. apply IH.
Qed.

Lemma Qsquare_nonneg (c : Q) : 0 <= c * c.
Proof.
  destruct (Qlt_le_dec c 0) as [H|H].
  - setoid_replace (c * c) with ((- c) * (- c)) by ring.
    apply Qmult_le_0_compat; lraQ.
  - now apply Qmult_le_0_compat.
Qed.

(** X20.  On a straight path of [n >= 1] samples from [(x0, y0)] to
    [(x1, y1)], [auc2] returns [(x1 - x0)*(y1 - y0) - |x1 - x0| * y0^2 / 2]:
    twice the signed area of the triangle under the path, minus a term that
    depends on the starting height only. *)
Theorem auc2_straight_line_value (a b c d : Q) (n : nat) (Hn : (1 <= n)%nat) :
  exists r,
    auc2 (line a b n) (line c d n) = Ok r /\
    r == (affine a b (n - 1) - affine a b 0)
         * (affine c d (n - 1) - affine c d 0)
         - (1 # 2) * Qabs (affine a b (n - 1) - affine a b 0)
           * (affine c d 0 * affine c d 0).
Proof.
  destruct n as [|m]; [lia|]. clear Hn.
  rewrite Nat.sub_succ, Nat.sub_0_r.
  assert (Hxl : Py.last (line a b (S m)) = Ok (affine a b m)).
  { unfold line. apply py_last_map, py_last_seq. }
  unfold auc2. rewrite Hxl. cbn [bind].
  assert (Hyf : Py.first (line c d (S m)) = Ok (affine c d 0)) by reflexivity.
  rewrite Hyf. cbn [bind].
  set (x' := line a b (S m) ++ [affine a b m]).
  set (y' := line c d (S m) ++ [affine c d 0]).
  assert (Lx : length x' = S (S m))
    by (unfold x'; rewrite length_app, line_length; simpl; lia).
  assert (Ly : length y' = S (S m))
    by (unfold y'; rewrite length_app, line_length; simpl; lia).
  rewrite Lx. rewrite area_loop_pure;
    [ | intros i Hi; apply in_seq in Hi; lia | lia | lia ].
  cbn [bind].
  assert (Hl1 : Py.last x' = Ok (affine a b m)) by apply py_last_snoc.
  assert (Hl2 : Py.last y' = Ok (affine c d 0)) by apply py_last_snoc.
  assert (Hf1 : Py.first x' = Ok (affine a b 0)) by reflexivity.
  assert (Hf2 : Py.first y' = Ok (affine c d 0)) by reflexivity.
  rewrite Hl1, Hf1, Hl2, Hf2. cbn [bind].
  eexists. split; [reflexivity|].
  rewrite Nat.sub_succ, Nat.sub_0_r.
  assert (Hsum : py_sum (cross_at x' y' (seq 0 (S (S m))) (S m))
                 == (affine a b m - affine a b 0)
                    * (affine c d m - affine c d 0)).
  { change (seq 0 (S (S m))) with (0%nat :: seq 1 (S m)).
    rewrite seq_S. cbn [cross_at]. rewrite py_sum_cons, cross_at_app, py_sum_app.
    assert (Hlast : List.last (seq 1 m) 0%nat = m).
    { pose proof (last_seq_default (S m)) as H. cbn [seq] in H.
      rewrite last_cons, Nat.sub_succ, Nat.sub_0_r in H. exact H. }
    rewrite Hlast. unfold x', y' at 3.
    rewrite cross_at_line;
      [ | intros i Hi; apply in_seq in Hi; lia | lia ].
    rewrite cross_terms_consecutive.
    cbn [cross_at Nat.add]. unfold py_sum at 1. cbn [fold_left].
    fold x'. fold y'.
    assert (X0 : nth 0 x' 0 = affine a b 0) by (apply nth_line_app; lia).
    assert (Y0 : nth 0 y' 0 = affine c d 0) by (apply nth_line_app; lia).
    assert (Xm : nth m x' 0 = affine a b m) by (apply nth_line_app; lia).
    assert (Ym : nth m y' 0 = affine c d m) by (apply nth_line_app; lia).
    assert (Xe : nth (S m) x' 0 = affine a b m).
    { unfold x'. rewrite app_nth2 by (rewrite line_length; lia).
      rewrite line_length, Nat.sub_diag. reflexivity. }
    assert (Ye : nth (S m) y' 0 = affine c d 0).
    { unfold y'. rewrite app_nth2 by (rewrite line_length; lia).
      rewrite line_length, Nat.sub_diag. reflexivity. }
    rewrite X0, Y0, Xm, Ym, Xe, Ye. unfold affine.
    change (inject_Z (Z.of_nat 0)) with 0. ring. }
  rewrite Hsum, (Qabs_pos (affine c d 0 * affine c d 0)) by apply Qsquare_nonneg.
  ring.
Qed.

Lemma auc2_straight_line_value_witness :
  exists r,
    auc2 (line 0 1 3) (line 2 1 3) = Ok r /\
    r == (affine 0 1 (3 - 1) - affine 0 1 0)
         * (affine 2 1 (3 - 1) - affine 2 1 0)
         - (1 # 2) * Qabs (affine 0 1 (3 - 1) - affine 0 1 0)
           * (affine 2 1 0 * affine 2 1 0).
Proof.
  apply (@auc2_straight_line_value 0 1 2 1 3). lia.
Defined.

(** ** Averaging trajectories *)

Lemma py_index_nth_row (x : list (list Q)) (p : nat) :
  (p < length x)%nat -> Py.index x p = Ok (nth p x []).
Proof.
  intros Hp. unfold Py.index.
  destruct (nth_error x p) as [a|] eqn:E.
  - f_equal. symmetry. now apply nth_error_nth.
  - apply nth_error_None in E. lia.
Qed.

Lemma map_nth_seq (A B : Type) (f : A -> B) (d : A) (l : list A) :
  map (fun p => f (nth p l d)) (seq 0 (length l)) = map f l.
Proof.
  induction l as [|a l IH]; [reflexivity|].
  cbn [length seq map nth]. f_equal.
  rewrite <- seq_shift, map_map. exact IH.
Qed.

(** On rectangular data the inner loop collects item [i] of every trial. *)
Lemma gather_rectangular (x y : list (list Q)) (L i : nat) (ps : list nat) :
  rectangular L x -> rectangular L y -> length x = length y ->
  (i < L)%nat -> (forall p, In p ps -> (p < length x)%nat) ->
  gather x y i ps
  = Ok (map (fun p => nth i (nth p x []) 0) ps,
        map (fun p => nth i (nth p y []) 0) ps).
Proof.
  intros Hx Hy Hlen Hi. induction ps as [|p ps IH]; intros Hps; [reflexivity|].
  assert (Hp : (p < length x)%nat) by (apply Hps; now left).
  cbn [gather map].
  rewrite (py_index_nth_row x Hp), (py_index_nth_row y) by lia. cbn [bind].
  assert (Lx : length (nth p x []) = L) by (apply Hx, nth_In; lia).
  assert (Ly : length (nth p y []) = L) by (apply Hy, nth_In; lia).
  rewrite !py_index_nth by lia. cbn [bind].
  rewrite IH by (intros p' Hp'; apply Hps; now right). reflexivity.
Qed.

Lemma mapM_ok (A B : Type) (f : A -> result B) (g : A -> B) (l : list A) :
  (forall a, In a l -> f a = Ok (g a)) -> mapM f l = Ok (map g l).
Proof.
  induction l as [|a l IH]; intros H; [reflexivity|].
  cbn [mapM map]. rewrite (H a (or_introl eq_refl)). cbn [bind].
  rewrite IH by (intros a' Ha'; apply H; now right). reflexivity.
Qed.

Lemma average_path_columns (x y : list (list Q)) (L : nat) (full : bool) :
  rectangular L x -> rectangular L y -> length x = length y -> x <> [] ->
  average_path x y full
  = if full
    then Ok (Columns (map (fun i => column i x) (seq 0 L))
                     (map (fun i => column i y) (seq 0 L)))
    else Ok (Means (map (fun i => np_mean (column i x)) (seq 0 L))
                   (map (fun i => np_mean (column i y)) (seq 0 L))).
Proof.
  intros Hx Hy Hlen Hne. unfold average_path.
  destruct x as [|row0 xs]; [congruence|].
  cbn [Py.index nth_error bind].
  assert (L0 : length row0 = L) by (apply Hx; now left).
  rewrite L0.
  rewrite (@mapM_ok _ _ _ (fun i => (column i (row0 :: xs), column i y))).
  - cbn [bind]. rewrite !map_map. cbn [fst snd]. reflexivity.
  - intros i Hi. apply in_seq in Hi.
    rewrite (@gather_rectangular (row0 :: xs) y L i);
      [ | assumption | assumption | assumption | lia
        | intros p Hp; apply in_seq in Hp; lia ].
    unfold column. f_equal. f_equal.
    + apply (map_nth_seq (fun row => nth i row 0)).
    + rewrite Hlen. apply (map_nth_seq (fun row => nth i row 0)).
Qed.

(** X21.  On rectangular data (every trial of [x] and [y] has [L] items, as
    many [y] trials as [x] trials, at least one trial) [average_path] returns
    two sequences of [L] items; item [i] is the mean over the trials of their
    item [i]. *)
Theorem average_path_means (x y : list (list Q)) (L : nat)
    (Hx : rectangular L x) (Hy : rectangular L y)
    (Hlen : length x = length y) (Hne : x <> []) :
  exists mx my,
    average_path x y false = Ok (Means mx my) /\
    length mx = L /\ length my = L /\
    forall i, (i < L)%nat ->
      nth_error mx i = Some (np_mean (column i x)) /\
      nth_error my i = Some (np_mean (column i y)).
Proof.
  rewrite (@average_path_columns x y L false Hx Hy Hlen Hne).
  do 2 eexists. split; [reflexivity|].
  rewrite !length_map, length_seq. split; [reflexivity|]. split; [reflexivity|].
  intros i Hi. rewrite !nth_error_map, nth_error_seq.
  destruct (Nat.ltb_spec i L) as [_|Hge]; [split; reflexivity | lia].
Qed.

Lemma average_path_means_witness :
  exists mx my,
    average_path [[0; 2]; [4; 6]] [[1; 1]; [3; 5]] false = Ok (Means mx my) /\
    length mx = 2%nat /\ length my = 2%nat /\
    forall i, (i < 2)%nat ->
      nth_error mx i = Some (np_mean (column i [[0; 2]; [4; 6]])) /\
      nth_error my i = Some (np_mean (column i [[1; 1]; [3; 5]])).
Proof.
  apply (@average_path_means [[0; 2]; [4; 6]] [[1; 1]; [3; 5]] 2).
  - intros row Hr. cbn [In] in Hr. destruct Hr as [<-|[<-|[]]]; reflexivity.
  - intros row Hr. cbn [In] in Hr. destruct Hr as [<-|[<-|[]]]; reflexivity.
  - reflexivity.
  - discriminate.
Defined.

(** X22.  With [full_output] the result is the transpose of the input: entry
    [p] of output row [i] is item [i] of trial [p]. *)
Theorem average_path_full_output (x y : list (list Q)) (L : nat)
    (Hx : rectangular L x) (Hy : rectangular L y)
    (Hlen : length x = length y) (Hne : x <> []) :
  exists fullx fully,
    average_path x y true = Ok (Columns fullx fully) /\
    length fullx = L /\ length fully = L /\
    forall i p, (i < L)%nat -> (p < length x)%nat ->
      nth p (nth i fullx []) 0 = nth i (nth p x []) 0 /\
      nth p (nth i fully []) 0 = nth i (nth p y []) 0.
Proof.
  rewrite (@average_path_columns x y L true Hx Hy Hlen Hne).
  do 2 eexists. split; [reflexivity|].
  rewrite !length_map, length_seq. split; [reflexivity|]. split; [reflexivity|].
  intros i p Hi Hp.
  assert (Hcol : forall z : list (list Q), (p < length z)%nat ->
            nth p (nth i (map (fun i => column i z) (seq 0 L)) []) 0
            = nth i (nth p z []) 0).
  { intros z Hz.
    rewrite (nth_indep _ [] (column 0 z)) by (now rewrite length_map, length_seq).
    rewrite (map_nth (fun i => column i z) (seq 0 L) 0%nat i), seq_nth by lia.
    cbn [Nat.add]. unfold column.
    rewrite (nth_indep _ 0 (nth i [] 0)) by (now rewrite length_map).
    apply (map_nth (fun row => nth i row 0)). }
  split; apply Hcol; lia.
Qed.

Lemma average_path_full_output_witness :
  exists fullx fully,
    average_path [[0; 2]; [4; 6]] [[1; 1]; [3; 5]] true
    = Ok (Columns fullx fully) /\
    length fullx = 2%nat /\ length fully = 2%nat /\
    forall i p, (i < 2)%nat -> (p < length ([[0; 2]; [4; 6]])%Q)%nat ->
      nth p (nth i fullx []) 0 = nth i (nth p [[0; 2]; [4; 6]] []) 0 /\
      nth p (nth i fully []) 0 = nth i (nth p [[1; 1]; [3; 5]] []) 0.
Proof.
  apply (@average_path_full_output [[0; 2]; [4; 6]] [[1; 1]; [3; 5]] 2).
  - intros row Hr. cbn [In] in Hr. destruct Hr as [<-|[<-|[]]]; reflexivity.
  - intros row Hr. cbn [In] in Hr. destruct Hr as [<-|[<-|[]]]; reflexivity.
  - reflexivity.
  - discriminate.
Defined.

Lemma py_sum_repeat (v : Q) (n : nat) :
  py_sum (repeat v n) == inject_Z (Z.of_nat n) * v.
Proof.
  induction n as [|n IH].
  - unfold py_sum. cbn. ring.
  - cbn [repeat]. rewrite py_sum_cons, IH, Nat2Z.inj_succ. unfold Z.succ.
    rewrite inject_Z_plus. change (inject_Z 1) with 1. ring.
Qed.

Lemma np_mean_repeat (v : Q) (n : nat) :
  (1 <= n)%nat -> np_mean (repeat v n) == v.
Proof.
  intros Hn. unfold np_mean. rewrite py_sum_repeat, repeat_length.
  assert (0 < inject_Z (Z.of_nat n)).
  { change 0 with (inject_Z 0). rewrite <- Zlt_Qlt. lia. }
  field. lraQ.
Qed.

Lemma Forall2_map_Qeq (A : Type) (g h : A -> Q) (l : list A) :
  (forall a, In a l -> g a == h a) -> Forall2 Qeq (map g l) (map h l).
Proof.
  induction l as [|a l IH]; intros H; [constructor|].
  cbn [map]. constructor; [apply H; now left|].
  apply IH. intros a' Ha'. apply H. now right.
Qed.

Lemma means_of_copies (row : list Q) (n : nat) :
  (1 <= n)%nat ->
  Forall2 Qeq
    (map (fun i => np_mean (column i (repeat row n))) (seq 0 (length row)))
    row.
Proof.
  intros Hn.
  pose proof (@Forall2_map_Qeq nat
                (fun i => np_mean (column i (repeat row n)))
                (fun i => nth i row 0) (seq 0 (length row))) as H.
  rewrite (map_nth_seq (fun v => v) 0 row), map_id in H. apply H.
  intros i _. unfold column. rewrite map_repeat. now apply np_mean_repeat.
Qed.

(** X23.  Averaging [n >= 1] copies of the same trial gives that trial back
    (a single trial is its own average). *)
Theorem average_path_identical_trials (row_x row_y : list Q) (n : nat)
    (Hn : (1 <= n)%nat) (Hlen : length row_x = length row_y) :
  exists mx my,
    average_path (repeat row_x n) (repeat row_y n) false = Ok (Means mx my) /\
    Forall2 Qeq mx row_x /\ Forall2 Qeq my row_y.
Proof.
  assert (Hrx : rectangular (length row_x) (repeat row_x n)).
  { intros r Hr. apply repeat_spec in Hr. now subst r. }
  assert (Hry : rectangular (length row_x) (repeat row_y n)).
  { intros r Hr. apply repeat_spec in Hr. subst r. now symmetry. }
  assert (Hl : length (repeat row_x n) = length (repeat row_y n))
    by (now rewrite !repeat_length).
  assert (Hne : repeat row_x n <> []).
  { destruct n; [lia | discriminate]. }
  rewrite (@average_path_columns _ _ _ false Hrx Hry Hl Hne).
  do 2 eexists. split; [reflexivity|]. split.
  - now apply means_of_copies.
  - rewrite Hlen. now apply means_of_copies.
Qed.

Lemma average_path_identical_trials_witness :
  exists mx my,
    average_path (repeat [0; 1; 3] 2) (repeat [5; 5; 6] 2) false
    = Ok (Means mx my) /\
    Forall2 Qeq mx [0; 1; 3] /\ Forall2 Qeq my [5; 5; 6].
Proof.
  apply (@average_path_identical_trials [0; 1; 3] [5; 5; 6] 2);
    [lia | reflexivity].
Defined.

Lemma gather_raises_index (x y : list (list Q)) (i : nat) (ps : list nat) (e : exn) :
  gather x y i ps = Raise e -> e = IndexError.
Proof.
  revert e. induction ps as [|p ps IH]; intros e; cbn [gather]; [discriminate|].
  unfold Py.index.
  destruct (nth_error x p) as [xrow|]; cbn [bind]; [|congruence].
  destruct (nth_error xrow i); cbn [bind]; [|congruence].
  destruct (nth_error y p) as [yrow|]; cbn [bind]; [|congruence].
  destruct (nth_error yrow i); cbn [bind]; [|congruence].
  destruct (gather x y i ps) as [rest|e'] eqn:E; cbn [bind]; [discriminate|].
  intros [= <-]. now apply IH.
Qed.

Lemma gather_short_row (x y : list (list Q)) (i p : nat) (ps : list nat)
    (row : list Q) :
  In p ps -> nth_error x p = Some row -> (length row <= i)%nat ->
  gather x y i ps = Raise IndexError.
Proof.
  intros Hp Hrow Hshort.
  destruct (gather x y i ps) as [r|e] eqn:E.
  - exfalso. revert r E. induction ps as [|q ps IH]; intros r E; [destruct Hp|].
    cbn [gather] in E. unfold Py.index in E.
    destruct (nth_error x q) as [xrow|] eqn:Ex; cbn [bind] in E; [|discriminate].
    destruct (nth_error xrow i) eqn:Exi; cbn [bind] in E; [|discriminate].
    destruct (nth_error y q) as [yrow|]; cbn [bind] in E; [|discriminate].
    destruct (nth_error yrow i); cbn [bind] in E; [|discriminate].
    destruct (gather x y i ps) as [rest|] eqn:Eg; cbn [bind] in E; [|discriminate].
    destruct Hp as [->|Hp].
    + assert (xrow = row) by congruence. subst xrow.
      assert (nth_error row i = None) by (now apply nth_error_None).
      congruence.
    + now apply (IH Hp rest).
  - f_equal. now apply gather_raises_index in E.
Qed.

Lemma mapM_raises (A B : Type) (f : A -> result B) (l : list A) (a : A) :
  In a l -> f a = Raise IndexError ->
  (forall a' e, f a' = Raise e -> e = IndexError) ->
  mapM f l = Raise IndexError.
Proof.
  intros Ha Hf Hall. induction l as [|b l IH]; [destruct Ha|].
  cbn [mapM]. destruct (f b) as [v|e] eqn:Eb; cbn [bind].
  - destruct Ha as [->|Ha]; [congruence|]. now rewrite IH.
  - f_equal. now apply (Hall b).
Qed.

(** X24.  Ragged data is an [IndexError]: if some trial of [x] is shorter
    than the first one, [average_path] raises it, with or without
    [full_output]; so it does without any trial. *)
Theorem average_path_ragged (x y : list (list Q)) (full : bool)
    (row0 row : list Q) (p : nat)
    (H0 : nth_error x 0 = Some row0) (Hp : nth_error x p = Some row)
    (Hshort : (length row < length row0)%nat) :
  average_path x y full = Raise IndexError /\
  average_path [] y full = Raise IndexError.
Proof.
  split; [|reflexivity].
  unfold average_path, Py.index. rewrite H0. cbn [bind].
  rewrite (@mapM_raises _ _ _ _ (length row)); [reflexivity | | | ].
  - apply in_seq. lia.
  - apply (@gather_short_row x y (length row) p _ row); [|exact Hp|lia].
    apply in_seq. assert (p < length x)%nat by (apply nth_error_Some; congruence).
    lia.
  - intros i e. apply gather_raises_index.
Qed.

Lemma average_path_ragged_witness :
  average_path [[0; 2; 4]; [1; 3]] [[0; 0; 0]; [0; 0; 0]] false
  = Raise IndexError /\
  average_path [] [[0; 0; 0]; [0; 0; 0]] false = Raise IndexError.
Proof.
  apply (@average_path_ragged [[0; 2; 4]; [1; 3]] [[0; 0; 0]; [0; 0; 0]]
           false [0; 2; 4] [1; 3] 1);
    [reflexivity | reflexivity | simpl; lia].
Defined.

(** ** Rotation and maximum deviation, continued *)

Open Scope R_scope.

Lemma sin2_cos2_one (a : R) : sin a * sin a + cos a * cos a = 1.
Proof. pose proof (sin2_cos2 a) as H. unfold Rsqr in H. exact H. Qed.

(** X25.  Rotations compose by adding their angles, and rotating back by the
    opposite angle returns the point. *)
Theorem rotate_compose (x y a b : R) :
  rotate (fst (rotate x y a)) (snd (rotate x y a)) b = rotate x y (a + b) /\
  rotate (fst (rotate x y a)) (snd (rotate x y a)) (- a) = (x, y).
Proof.
  unfold rotate. cbn [fst snd]. split.
  - rewrite sin_plus, cos_plus. f_equal; ring.
  - rewrite sin_neg, cos_neg. pose proof (sin2_cos2_one a) as H. f_equal.
    + replace x with ((sin a * sin a + cos a * cos a) * x) at 3
        by (rewrite H; ring).
      ring.
    + replace y with ((sin a * sin a + cos a * cos a) * y) at 3
        by (rewrite H; ring).
      ring.
Qed.

(** A rotation keeps the distance to the origin. *)
Lemma rotate_preserves_norm (x y rad : R) :
  sqrt (fst (rotate x y rad) ^ 2 + snd (rotate x y rad) ^ 2)
  = sqrt (x ^ 2 + y ^ 2).
Proof.
  unfold rotate. cbn [fst snd]. f_equal.
  pose proof (sin2_cos2_one rad) as H.
  replace (x ^ 2 + y ^ 2)
    with ((sin rad * sin rad + cos rad * cos rad) * (x ^ 2 + y ^ 2))
    by (rewrite H; ring).
  ring.
Qed.

Lemma abs_rotated_offset (xe ye : R) (p : R * R) :
  ye <> 0 ->
  Rabs (cos (atan (xe / ye)) * offset xe ye p) = line_distance xe ye p.
Proof.
  intros Hye. unfold line_distance, offset.
  rewrite cos_atan.
  assert (Hpos : 0 < 1 + (xe / ye)²) by (unfold Rsqr; nra).
  assert (Hs : 0 < sqrt (1 + (xe / ye)²)) by (now apply sqrt_lt_R0).
  assert (Hn : sqrt (xe * xe + ye * ye) = Rabs ye * sqrt (1 + (xe / ye)²)).
  { rewrite <- sqrt_Rsqr_abs, <- sqrt_mult;
      [ | apply Rle_0_sqr | lraR ].
    f_equal. unfold Rsqr. field. exact Hye. }
  rewrite Hn.
  replace (1 / sqrt (1 + (xe / ye)²) * ((fst p * ye - snd p * xe) / ye))
    with ((fst p * ye - snd p * xe) / (ye * sqrt (1 + (xe / ye)²)))
    by (field; split; lraR).
  unfold Rdiv. rewrite Rabs_mult, Rabs_inv, Rabs_mult.
  rewrite (Rabs_pos_eq (sqrt _)) by apply sqrt_pos.
  reflexivity.
Qed.

Lemma signed_extreme_magnitude (rx : list R) :
  rx <> [] ->
  exists m, signed_extreme rx = Ok m /\
    (forall v, In v rx -> Rabs v <= Rabs m) /\
    (exists v, In v rx /\ Rabs m = Rabs v).
Proof.
  intros Hne. unfold signed_extreme.
  destruct (py_min_spec Hne) as (lo & -> & Hlo & Hlob).
  destruct (py_max_spec Hne) as (hi & -> & Hhi & Hhib).
  cbn [bind].
  destruct (Rgtb (Rabs lo) (Rabs hi)) eqn:E.
  - apply Rltb_lt in E. eexists. split; [reflexivity|].
    rewrite Rabs_Rabsolu. split; [|now exists lo].
    intros v Hv. pose proof (Hlob v Hv). pose proof (Hhib v Hv).
    revert E. unfold Rabs.
    destruct (Rcase_abs v), (Rcase_abs lo), (Rcase_abs hi); intros; lraR.
  - apply Rltb_ge in E. eexists. split; [reflexivity|].
    replace (-1 * Rabs hi) with (- Rabs hi) by ring.
    rewrite Rabs_Ropp, Rabs_Rabsolu. split; [|now exists hi].
    intros v Hv. pose proof (Hlob v Hv). pose proof (Hhib v Hv).
    revert E. unfold Rabs.
    destruct (Rcase_abs v), (Rcase_abs lo), (Rcase_abs hi); intros; lraR.
Qed.

(** X27.  For a path ending at [(xe, ye)] with [ye <> 0], the magnitude of
    [max_deviation] is the greatest distance from a point of the path to the
    line through the origin and the end point: no point is farther, and some
    point is exactly that far. *)
Theorem max_deviation_magnitude (x y : list R) (xe ye : R)
    (Hlen : length x = length y)
    (Hx : Py.last x = Ok xe) (Hy : Py.last y = Ok ye) (Hye : ye <> 0) :
  exists m,
    max_deviation x y = Ok m /\
    (forall p, In p (combine x y) -> line_distance xe ye p <= Rabs m) /\
    (exists p, In p (combine x y) /\ Rabs m = line_distance xe ye p).
Proof.
  rewrite (max_deviation_signed_extreme x y Hx Hy Hye).
  set (rx := map (fun p => cos (atan (xe / ye)) * offset xe ye p) (combine x y)).
  assert (Hne : rx <> []).
  { intros E. pose proof (endpoint_rotates_to_zero x y (cos (atan (xe / ye)))
                            Hlen Hx Hy Hye) as H0.
    fold rx in H0. rewrite E in H0. destruct H0. }
  destruct (signed_extreme_magnitude Hne) as (m & Hm & Hall & (v & Hv & Hmv)).
  exists m. split; [exact Hm|]. split.
  - intros p Hp. rewrite <- (abs_rotated_offset xe p Hye).
    apply Hall. unfold rx. apply in_map_iff. now exists p.
  - unfold rx in Hv. apply in_map_iff in Hv. destruct Hv as (p & <- & Hp).
    exists p. split; [exact Hp|]. rewrite Hmv. now apply abs_rotated_offset.
Qed.

Lemma max_deviation_magnitude_witness :
  exists m,
    max_deviation [0; -1; 1] [0; 1; 1] = Ok m /\
    (forall p, In p (combine [0; -1; 1] [0; 1; 1]) ->
       line_distance 1 1 p <= Rabs m) /\
    (exists p, In p (combine [0; -1; 1] [0; 1; 1]) /\
       Rabs m = line_distance 1 1 p).
Proof.
  apply (@max_deviation_magnitude [0; -1; 1] [0; 1; 1] 1 1);
    [reflexivity | reflexivity | reflexivity | lraR].
Defined.

(** ** Relative distance, continued *)

Lemma py_index_nthR (l : list R) (i : nat) :
  (i < length l)%nat -> Py.index l i = Ok (nth i l 0).
Proof.
  intros Hi. unfold Py.index.
  destruct (nth_error l i) as [a|] eqn:E.
  - f_equal. symmetry. now apply nth_error_nth.
  - apply nth_error_None in E. lia.
Qed.

Lemma mapM_inv (A B : Type) (f : A -> result B) (l : list A) (r : list B) :
  mapM f l = Ok r ->
  length r = length l /\ forall b, In b r -> exists a, In a l /\ f a = Ok b.
Proof.
  revert r. induction l as [|a l IH]; intros r H; cbn [mapM] in H.
  - injection H as <-. split; [reflexivity|]. intros b [].
  - destruct (f a) as [b0|e] eqn:Ea; [|discriminate H]. cbn [bind] in H.
    destruct (mapM f l) as [bs|e] eqn:El; [|discriminate H]. cbn [bind] in H.
    injection H as <-. destruct (IH bs eq_refl) as [Hlen Hin].
    split; [simpl; now rewrite Hlen|].
    intros b [<-|Hb].
    + exists a. split; [now left | exact Ea].
    + destruct (Hin b Hb) as (a' & Ha' & Hf). exists a'. split; [now right | exact Hf].
Qed.

(** Whenever a round of the loop returns, its ratio lies between 0 and 1. *)
Lemma rel_step_range (x_path y_path : list R) (rx1 ry1 rx2 ry2 v d1 d2 : R)
    (i : nat) :
  rel_step x_path y_path rx1 ry1 rx2 ry2 i = Ok (v, d1, d2) -> 0 <= v <= 1.
Proof.
  unfold rel_step. intros H.
  destruct (Py.index x_path i) as [x|e]; [|discriminate H].
  destruct (Py.index y_path i) as [y|e]; [|discriminate H].
  cbn [bind] in H. unfold py_divR in H.
  pose proof (sqrt_pos ((x - rx1) ^ 2 + (y - ry1) ^ 2)) as H1.
  pose proof (sqrt_pos ((x - rx2) ^ 2 + (y - ry2) ^ 2)) as H2.
  set (a := sqrt ((x - rx1) ^ 2 + (y - ry1) ^ 2)) in *.
  set (b := sqrt ((x - rx2) ^ 2 + (y - ry2) ^ 2)) in *.
  destruct (Req_dec_T (a + b) 0) as [E|E]; [discriminate H|].
  cbn [bind] in H. injection H as <- _ _.
  assert (Hinv : 0 < / (a + b)) by (apply Rinv_0_lt_compat; lraR).
  assert (P1 : 0 <= a / (a + b)) by (unfold Rdiv; apply Rmult_le_pos; lraR).
  assert (P2 : 0 <= b / (a + b)) by (unfold Rdiv; apply Rmult_le_pos; lraR).
  assert (P3 : a / (a + b) = 1 - b / (a + b)) by (field; lraR).
  lraR.
Qed.

(** The curve of the path (3,0), (0,8). *)
Lemma rel_distance_example :
  rel_distance [3; 0] [0; 8] false = Ok (RelCurve [0; 1 / 2]).
Proof.
  assert (H73 : 0 < sqrt 73) by (apply sqrt_lt_R0; lraR).
  unfold rel_distance. cbn [Py.first Py.last Py.index nth_error List.last bind
                            length seq mapM].
  rewrite (@rel_step_value [3; 0] [0; 8] 3 0 (-1 * 3) 0 3 0 0 6 0%nat);
    [ | reflexivity | reflexivity
      | rewrite <- sqrt_0; f_equal; ring
      | apply sqrt_of_square; [lraR | ring]
      | lraR ].
  rewrite (@rel_step_value [3; 0] [0; 8] 3 0 (-1 * 3) 0 0 8
             (sqrt 73) (sqrt 73) 1%nat);
    [ | reflexivity | reflexivity | f_equal; ring | f_equal; ring | lraR ].
  cbn [bind map fst snd]. do 3 f_equal; [|f_equal]; field; lraR.
Qed.

(** X28.  Whenever [rel_distance] returns a curve for a path of Python
    numbers, the curve has one value per sample of [x_path], each between 0
    and 1. *)
Theorem rel_distance_range (x_path y_path r_d : list R)
    (Hret : rel_distance x_path y_path false = Ok (RelCurve r_d)) :
  length r_d = length x_path /\ forall v, In v r_d -> 0 <= v <= 1.
Proof.
  unfold rel_distance in Hret.
  destruct (Py.first x_path) as [rx1|e]; [|discriminate Hret].
  destruct (Py.last x_path) as [ry1|e]; [|discriminate Hret].
  cbn [bind] in Hret.
  destruct (mapM (rel_step x_path y_path rx1 ry1 (-1 * rx1) ry1)
              (seq 0 (length x_path))) as [rows|e] eqn:Erows;
    [|discriminate Hret].
  cbn [bind] in Hret. injection Hret as <-.
  destruct (mapM_inv _ _ Erows) as [Hlen Hin].
  split; [now rewrite length_map, Hlen, length_seq|].
  intros v Hv. apply in_map_iff in Hv. destruct Hv as ([[v' d1] d2] & <- & Hrow).
  destruct (Hin _ Hrow) as (i & _ & Hi). cbn [fst].
  exact (rel_step_range _ _ _ _ _ _ _ Hi).
Qed.

Lemma rel_distance_range_witness :
  length ([0; 1 / 2])%R = length ([3; 0])%R /\
  forall v, In v [0; 1 / 2] -> 0 <= v <= 1.
Proof.
  apply (@rel_distance_range [3; 0] [0; 8] [0; 1 / 2]).
  exact rel_distance_example.
Defined.

(** ** Step lengths *)

Lemma ediff1d_length (l : list R) : length (NpR.ediff1d l) = (length l - 1)%nat.
Proof.
  induction l as [|a [|b l] IH]; [reflexivity | reflexivity |].
  change (NpR.ediff1d (a :: b :: l)) with ((b - a) :: NpR.ediff1d (b :: l)).
  cbn [length] in *. rewrite IH. lia.
Qed.

Lemma ediff1d_shift (c : R) (l : list R) :
  NpR.ediff1d (shiftR c l) = NpR.ediff1d l.
Proof.
  unfold shiftR. induction l as [|a [|b l] IH]; [reflexivity | reflexivity |].
  change (NpR.ediff1d (a :: b :: l)) with ((b - a) :: NpR.ediff1d (b :: l)).
  change (map (fun v => v + c) (a :: b :: l))
    with ((a + c) :: map (fun v => v + c) (b :: l)).
  change (map (fun v => v + c) (b :: l))
    with ((b + c) :: map (fun v => v + c) l) at 1.
  change (NpR.ediff1d ((a + c) :: (b + c) :: map (fun v => v + c) l))
    with ((b + c - (a + c)) :: NpR.ediff1d ((b + c) :: map (fun v => v + c) l)).
  change ((b + c) :: map (fun v => v + c) l) with (map (fun v => v + c) (b :: l)).
  rewrite IH. f_equal. ring.
Qed.

Lemma zip_with_length (f : R -> R -> R) (u v : list R) :
  length u = length v -> length (NpR.zip_with f u v) = length u.
Proof.
  revert v. induction u as [|a u IH]; intros [|b v] H; try discriminate;
    [reflexivity|].
  cbn [NpR.zip_with length]. f_equal. apply IH. now injection H.
Qed.

Lemma velocity_equal_lengths (x y : list R) :
  length x = length y ->
  velocity x y
  = Ok (map sqrt (NpR.zip_with Rplus (map (fun v => v ^ 2) (NpR.ediff1d x))
                                     (map (fun v => v ^ 2) (NpR.ediff1d y)))).
Proof.
  intros Hlen. unfold velocity, NpR.broadcast.
  rewrite !length_map, !ediff1d_length, Hlen, Nat.eqb_refl. reflexivity.
Qed.

(** X29.  For [x] and [y] of the same length [n], [velocity] returns [n - 1]
    step lengths (none for fewer than two samples), none of them negative,
    and moving the whole path does not change them. *)
Theorem velocity_steps (x y : list R) (c d : R) (Hlen : length x = length y) :
  exists vel,
    velocity x y = Ok vel /\
    length vel = (length x - 1)%nat /\
    (forall v, In v vel -> 0 <= v) /\
    velocity (shiftR c x) (shiftR d y) = Ok vel.
Proof.
  rewrite (velocity_equal_lengths x y Hlen).
  eexists. split; [reflexivity|]. split; [|split].
  - rewrite length_map, zip_with_length; rewrite !length_map, !ediff1d_length;
      [reflexivity | lia].
  - intros v Hv. apply in_map_iff in Hv. destruct Hv as (w & <- & _).
    apply sqrt_pos.
  - rewrite velocity_equal_lengths
      by (unfold shiftR; rewrite !length_map; exact Hlen).
    now rewrite !ediff1d_shift.
Qed.

Lemma velocity_steps_witness :
  exists vel,
    velocity [0; 3; 3] [0; 4; 4] = Ok vel /\
    length vel = (length ([0; 3; 3])%R - 1)%nat /\
    (forall v, In v vel -> 0 <= v) /\
    velocity (shiftR 1 [0; 3; 3]) (shiftR 2 [0; 4; 4]) = Ok vel.
Proof.
  apply (@velocity_steps [0; 3; 3] [0; 4; 4] 1 2). reflexivity.
Defined.

Lemma ediff1d_repeat (a : R) (n : nat) :
  NpR.ediff1d (repeat a n) = repeat 0 (n - 1).
Proof.
  induction n as [|[|n] IH]; [reflexivity | reflexivity |].
  change (repeat a (S (S n))) with (a :: a :: repeat a n).
  change (NpR.ediff1d (a :: a :: repeat a n))
    with ((a - a) :: NpR.ediff1d (repeat a (S n))).
  rewrite IH. cbn [Nat.sub repeat]. rewrite Nat.sub_0_r. f_equal. ring.
Qed.

Lemma zip_with_repeat (f : R -> R -> R) (u v : R) (k : nat) :
  NpR.zip_with f (repeat u k) (repeat v k) = repeat (f u v) k.
Proof.
  induction k as [|k IH]; [reflexivity|].
  cbn [repeat NpR.zip_with]. now rewrite IH.
Qed.

(** X30.  A path that does not move has velocity 0 at every step: for [n]
    identical samples the result is [n - 1] zeros. *)
Theorem velocity_constant_path (a b : R) (n : nat) :
  velocity (repeat a n) (repeat b n) = Ok (repeat 0 (n - 1)).
Proof.
  rewrite velocity_equal_lengths by (now rewrite !repeat_length).
  rewrite !ediff1d_repeat, !map_repeat, zip_with_repeat, map_repeat.
  replace (0 ^ 2 + 0 ^ 2) with 0 by ring. now rewrite sqrt_0.
Qed.

(** X26.  Sequences of different lengths are a [ValueError] unless one of
    them has exactly two samples: a two-sample [x] is stretched over [y]
    without any error, and the result has [len(y) - 1] items. *)
Theorem velocity_length_mismatch (x y : list R) (x0 x1 : R)
    (Hdiff : (length x - 1 <> length y - 1)%nat)
    (Hx : length x <> 2%nat) (Hy : length y <> 2%nat) :
  velocity x y = Raise ValueError /\
  exists vel,
    velocity [x0; x1] y = Ok vel /\ length vel = (length y - 1)%nat.
Proof.
  split.
  - unfold velocity, NpR.broadcast.
    pose proof (ediff1d_length x) as Lx. pose proof (ediff1d_length y) as Ly.
    rewrite !length_map.
    destruct (Nat.eqb_spec (length (NpR.ediff1d x)) (length (NpR.ediff1d y)))
      as [E|E]; [lia|].
    destruct (NpR.ediff1d x) as [|a [|a' u]]; cbn [map length] in *.
    + destruct (NpR.ediff1d y) as [|b [|b' v]]; cbn [map length] in *;
        [lia | lia | reflexivity].
    + lia.
    + destruct (NpR.ediff1d y) as [|b [|b' v]]; cbn [map length] in *;
        [reflexivity | lia | reflexivity].
  - unfold velocity, NpR.broadcast.
    pose proof (ediff1d_length y) as Ly.
    change (NpR.ediff1d [x0; x1]) with [x1 - x0]. cbn [map length].
    rewrite length_map.
    destruct (Nat.eqb_spec 1 (length (NpR.ediff1d y))) as [E|E]; cbn [bind].
    + eexists. split; [reflexivity|].
      rewrite length_map, zip_with_length; rewrite ?length_map; cbn [length]; lia.
    + eexists. split; [reflexivity|]. rewrite !length_map. lia.
Qed.

Lemma velocity_length_mismatch_witness :
  velocity [0; 1; 2] [0; 1; 2; 3] = Raise ValueError /\
  exists vel,
    velocity [5; 6] [0; 1; 2; 3] = Ok vel /\
    length vel = (length ([0; 1; 2; 3])%R - 1)%nat.
Proof.
  apply (@velocity_length_mismatch [0; 1; 2] [0; 1; 2; 3] 5 6);
    simpl; lia.
Defined.
